(* ===================================================================== *)
(* photometry_linalg: weighted linear least squares for photometric      *)
(* detrending (photometry_linalg.ipynb).                                 *)
(*                                                                       *)
(* The notebook works on NumPy arrays.  An array is modelled with its    *)
(* run-time shape (0-d, 1-d or 2-d) and a MathComp matrix of that shape  *)
(* as payload; the NumPy calls the notebook makes (np.diag, **, .T, @,   *)
(* np.linalg.inv, np.vstack, slicing, -) are modelled with the shape     *)
(* checks and the exceptions NumPy raises.  Entries live in an ordered   *)
(* field F: arithmetic is exact, rounding of float64 is not modelled.    *)
(* np.linalg.inv is a LAPACK call whose code is not part of the          *)
(* notebook; it is modelled by what it computes: the inverse of a        *)
(* square invertible matrix, LinAlgError otherwise.  On a singular       *)
(* matrix this is what LAPACK does when no rounding occurs; what it does *)
(* in float64, where it raises only on a pivot that is exactly zero, is  *)
(* modelled apart, in module F64.                                        *)
(* ===================================================================== *)

From Stdlib Require Import ZArith QArith Qround Qabs.
From mathcomp Require Import boot order algebra.
From mathcomp Require Import fingroup perm.

Set Implicit Arguments.
Unset Strict Implicit.
Unset Printing Implicit Defensive.

Import GRing.Theory Num.Theory Order.Theory.
Local Open Scope ring_scope.

Set Warnings "-rewrite-rw".

(* --------------------------------------------------------------------- *)
(* Exceptions and results                                                *)
(* --------------------------------------------------------------------- *)

(* The exceptions NumPy raises in the calls below. *)
Inductive exn : Type := ValueError | LinAlgError | IndexError.

Inductive result (A : Type) : Type :=
| Ok of A
| Raise of exn.

Arguments Ok {A} _.
Arguments Raise {A} _.

(* --------------------------------------------------------------------- *)
(* Sample inputs over the rationals                                      *)
(* --------------------------------------------------------------------- *)

(* one observation, one basis vector: X = [[1]], y = [1] *)
Definition X1 : 'M[rat]_1 := 1%:M.
Definition y1 : 'rV[rat]_1 := 1%:M.

(* uncertainties of length 1: [1], [-1], [0] *)
Definition sigma_one : 'rV[rat]_1 := 1%:M.
Definition sigma_neg : 'rV[rat]_1 := (-1)%:M.
Definition sigma_zero : 'rV[rat]_1 := 0.

(* two observations of a constant: X = [[1], [1]], y = [1, 1],
   err = [1, 1] *)
Definition X2 : 'M[rat]_(2, 1) := const_mx 1.
Definition y2 : 'rV[rat]_2 := const_mx 1.
Definition err2 : 'rV[rat]_2 := const_mx 1.

(* the same basis vector twice: X = [[1, 1], [1, 1]] *)
Definition X_dup : 'M[rat]_2 := const_mx 1.

(* --------------------------------------------------------------------- *)
(* float64 arithmetic                                                    *)
(* --------------------------------------------------------------------- *)

(* The exact model below cannot tell when np.linalg.inv raises in
   float64: LAPACK raises only when its LU factorisation meets a pivot
   that is exactly zero, and rounding can turn the zero pivot of a
   singular matrix into a small number.  This module models linreg on
   float64 numbers: every operation rounds to nearest, ties to even;
   np.linalg.inv is LAPACK's dgesv on the identity (dgetf2: partial
   pivoting, the column below the pivot scaled by the reciprocal of the
   pivot; dgetrs: forward and back substitution), without blocking and
   without fused multiply-add; products accumulate from left to right. *)

Delimit Scope Z_scope with binZ.
Delimit Scope Q_scope with binQ.

Module F64.

(* A float64 number is kept as the rational it denotes.  Subnormal
   numbers, infinities and nan are outside the model, and -0 is not
   told from 0. *)

(* 2^e *)
Definition pow2 (e : Z) : Q :=
  if (0 <=? e)%binZ then inject_Z (2 ^ e)%binZ
  else (/ inject_Z (2 ^ (- e))%binZ)%binQ.

(* floor (log2 a), for a > 0 *)
Definition ilog2 (a : Q) : Z :=
  let e := (Z.log2 (Qnum a) - Z.log2 (Zpos (Qden a)))%binZ in
  if Qle_bool (pow2 e) a then e else (e - 1)%binZ.

(* the nearest integer, ties to even, for a >= 0 *)
Definition round_even (a : Q) : Z :=
  let f := Qfloor a in
  match (a - inject_Z f ?= 1 # 2)%binQ with
  | Lt => f
  | Gt => (f + 1)%binZ
  | Eq => if Z.even f then f else (f + 1)%binZ
  end.

(* rounding to the nearest float64 (53 significant bits, ties to even);
   None outside the range of normal numbers *)
Definition rnd (q : Q) : option Q :=
  if Qeq_bool q 0%binQ then Some 0%binQ else
  let a := Qabs q in
  let e := ilog2 a in
  if (e <? -1022)%binZ then None else
  let m := round_even (a * pow2 (52 - e)%binZ)%binQ in
  let r := Qred (inject_Z m * pow2 (e - 52)%binZ)%binQ in
  if Qle_bool (pow2 1024%binZ) r then None
  else Some (if Qle_bool 0%binQ q then r else Qred (- r)%binQ).


(* outcome of a float64 computation: a value, an exception, or a result
   outside the numbers modelled (infinity, nan, subnormal) *)
Inductive res (A : Type) : Type :=
| Done of A
| Fail of exn
| Outside.

Arguments Done {A} _.
Arguments Fail {A} _.
Arguments Outside {A}.

Definition bind {A B} (m : res A) (f : A -> res B) : res B :=
  match m with
  | Done a => f a
  | Fail e => Fail e
  | Outside => Outside
  end.

Local Notation "x <- m ;; k" := (bind m (fun x => k))
  (at level 100, m at next level, right associativity).

Definition of_option (o : option Q) : res Q :=
  if o is Some x then Done x else Outside.

(* the arithmetic operations round their exact result *)
Definition add (x y : Q) : res Q := of_option (rnd (x + y)%binQ).
Definition sub (x y : Q) : res Q := of_option (rnd (x - y)%binQ).
Definition mul (x y : Q) : res Q := of_option (rnd (x * y)%binQ).
Definition div (x y : Q) : res Q :=
  if Qeq_bool y 0%binQ then Outside else of_option (rnd (x / y)%binQ).

Fixpoint mapM {A B} (f : A -> res B) (s : seq A) : res (seq B) :=
  match s with
  | [::] => Done [::]
  | a :: s' => b <- f a ;; bs <- mapM f s' ;; Done (b :: bs)
  end.

(* a dot product, accumulated from left to right *)
Fixpoint dot_from (acc : Q) (u v : seq Q) : res Q :=
  match u, v with
  | a :: u', b :: v' => p <- mul a b ;; s <- add acc p ;; dot_from s u' v'
  | _, _ => Done acc
  end.

Definition dot (u v : seq Q) : res Q := dot_from 0%binQ u v.

(* arrays: a 2-d array is kept as its number of columns and its rows *)
Inductive ndarray : Type :=
| Arr0 of Q
| Arr1 of seq Q
| Arr2 of nat & seq (seq Q).

Definition cols (n : nat) (rows : seq (seq Q)) : seq (seq Q) :=
  [seq [seq nth 0%binQ r j | r <- rows] | j <- iota 0 n].

Definition diag (v : ndarray) : res ndarray :=
  match v with
  | Arr0 _ => Fail ValueError
  | Arr1 d =>
      Done (Arr2 (size d)
              [seq [seq (if i == j then nth 0%binQ d i else 0%binQ)
                   | j <- iota 0 (size d)] | i <- iota 0 (size d)])
  | Arr2 n rows =>
      Done (Arr1 [seq nth 0%binQ (nth [::] rows i) i
                 | i <- iota 0 (minn (size rows) n)])
  end.

Definition sqr (a : ndarray) : res ndarray :=
  match a with
  | Arr0 x => y <- mul x x ;; Done (Arr0 y)
  | Arr1 v => w <- mapM (fun x => mul x x) v ;; Done (Arr1 w)
  | Arr2 n rows =>
      rows' <- mapM (mapM (fun x => mul x x)) rows ;; Done (Arr2 n rows')
  end.

Definition T (a : ndarray) : ndarray :=
  match a with
  | Arr2 n rows => Arr2 (size rows) (cols n rows)
  | _ => a
  end.

Definition matmul (a b : ndarray) : res ndarray :=
  match a, b with
  | Arr2 n A, Arr2 q B =>
      if n == size B
      then C <- mapM (fun r => mapM (dot r) (cols q B)) A ;; Done (Arr2 q C)
      else Fail ValueError
  | Arr2 n A, Arr1 w =>
      if n == size w
      then c <- mapM (fun r => dot r w) A ;; Done (Arr1 c)
      else Fail ValueError
  | Arr1 v, Arr2 q B =>
      if size v == size B
      then c <- mapM (dot v) (cols q B) ;; Done (Arr1 c)
      else Fail ValueError
  | Arr1 v, Arr1 w =>
      if size v == size w
      then x <- dot v w ;; Done (Arr0 x)
      else Fail ValueError
  | _, _ => Fail ValueError
  end.

(* |x| < |y| *)
Definition abs_lt (x y : Q) : bool := ~~ Qle_bool (Qabs y) (Qabs x).

(* the index of the first entry of largest absolute value *)
Fixpoint argmax_from (best : nat) (bv : Q) (i : nat) (xs : seq Q) : nat :=
  match xs with
  | [::] => best
  | x :: xs' =>
      if abs_lt bv x then argmax_from i x i.+1 xs'
      else argmax_from best bv i.+1 xs'
  end.

Definition argmax (xs : seq Q) : nat :=
  if xs is x :: xs' then argmax_from 0 x 1 xs' else 0%N.

(* a row of the matrix with the row of the right-hand side beside it *)
Definition row : Type := (seq Q * seq Q)%type.

Definition swap0 (p : nat) (rs : seq row) : seq row :=
  if rs is r0 :: _ then set_nth r0 (set_nth r0 rs p r0) 0 (nth r0 rs p)
  else rs.

(* y - l * x, entry by entry *)
Definition axpy (l : Q) (x y : seq Q) : res (seq Q) :=
  mapM (fun xy => p <- mul l xy.1 ;; sub xy.2 p) (zip x y).

(* one step of the elimination on a row below the pivot row: the
   multiplier is the entry times the reciprocal r of the pivot *)
Definition eliminate_row (j : nat) (r : Q) (prow rw : row) : res row :=
  l <- mul (nth 0%binQ rw.1 j) r ;;
  a' <- axpy l (drop j.+1 prow.1) (drop j.+1 rw.1) ;;
  b' <- axpy l prow.2 rw.2 ;;
  Done (nseq j.+1 0%binQ ++ a', b').

(* LU factorisation with partial pivoting, column by column, carried out
   on the right-hand side as well; a pivot that is exactly zero is the
   only thing that stops it *)
Fixpoint eliminate (fuel j : nat) (rs : seq row) : res (seq row) :=
  match fuel, rs with
  | fuel'.+1, _ :: _ =>
      match swap0 (argmax [seq nth 0%binQ r.1 j | r <- rs]) rs with
      | prow :: rest =>
          let piv := nth 0%binQ prow.1 j in
          if Qeq_bool piv 0%binQ then Fail LinAlgError else
          r <- div 1%binQ piv ;;
          rest' <- mapM (eliminate_row j r prow) rest ;;
          tail <- eliminate fuel' j.+1 rest' ;;
          Done (prow :: tail)
      | [::] => Done [::]
      end
  | _, _ => Done rs
  end.

(* back substitution, from the last row up *)
Fixpoint back (fuel k : nat) (rev_rows : seq row) : res (seq (seq Q)) :=
  match fuel, rev_rows with
  | fuel'.+1, (u, b) :: above =>
      x <- mapM (fun bc => div bc (nth 0%binQ u k)) b ;;
      above' <- mapM (fun rw : row =>
                        b' <- axpy (nth 0%binQ rw.1 k) x rw.2 ;;
                        Done (rw.1, b')) above ;;
      xs <- back fuel' k.-1 above' ;;
      Done (rcons xs x)
  | _, _ => Done [::]
  end.

Definition identity (n : nat) : seq (seq Q) :=
  [seq [seq (if i == j then 1%binQ else 0%binQ) | j <- iota 0 n]
  | i <- iota 0 n].

Definition lu (n : nat) (A : seq (seq Q)) : res (seq row) :=
  eliminate n 0 (zip A (identity n)).

(* np.linalg.inv(a): LinAlgError unless a is 2-d and square, and when
   the factorisation meets a pivot that is exactly zero *)
Definition inv (a : ndarray) : res ndarray :=
  match a with
  | Arr2 n A =>
      if size A == n then
        U <- lu n A ;;
        X <- back n n.-1 (rev U) ;;
        Done (Arr2 n X)
      else Fail LinAlgError
  | _ => Fail LinAlgError
  end.

(* linreg, line by line as in the exact model below *)
Definition linreg (X flux err : ndarray) : res (ndarray * ndarray) :=
  d <- diag err ;;
  d2 <- sqr d ;;
  inv_N <- inv d2 ;;
  b1 <- matmul (T X) inv_N ;;
  b2 <- matmul b1 X ;;
  b3 <- inv b2 ;;
  b4 <- matmul b3 (T X) ;;
  b5 <- matmul b4 inv_N ;;
  betas <- matmul b5 flux ;;
  c1 <- matmul (T X) inv_N ;;
  c2 <- matmul c1 X ;;
  cov <- inv c2 ;;
  Done (betas, cov).

End F64.

(* float64 inputs: the basis vector [5, 4, 2, 2] twice; unit flux and
   uncertainties; the basis vector [1, 1] twice *)
Definition rows_5422 : seq (seq Q) :=
  [:: [:: 5; 5]; [:: 4; 4]; [:: 2; 2]; [:: 2; 2]]%binQ.
Definition X_5422 : F64.ndarray := F64.Arr2 2 rows_5422.
Definition ones4 : F64.ndarray := F64.Arr1 [:: 1; 1; 1; 1]%binQ.
Definition X_11 : F64.ndarray := F64.Arr2 2 [:: [:: 1; 1]; [:: 1; 1]]%binQ.
Definition ones2 : F64.ndarray := F64.Arr1 [:: 1; 1]%binQ.

Section Numpy.

Variable F : realFieldType.

(* --------------------------------------------------------------------- *)
(* Arrays                                                                *)
(* --------------------------------------------------------------------- *)

(* A NumPy array of dimension at most two.  A 1-d array of shape (n,) is
   kept as a row; a 2-d array of shape (m, n) as an m x n matrix. *)
Inductive ndarray : Type :=
| Arr0 of F
| Arr1 n of 'rV[F]_n
| Arr2 m n of 'M[F]_(m, n).

Arguments Arr1 {n} _.
Arguments Arr2 {m n} _.

Definition ndim (a : ndarray) : nat :=
  match a with Arr0 _ => 0 | Arr1 _ _ => 1 | Arr2 _ _ _ => 2 end.

(* shape, padded on the left with ones (as broadcasting sees it) *)
Definition shape2 (a : ndarray) : nat * nat :=
  match a with
  | Arr0 _ => (1, 1)
  | @Arr1 n _ => (1, n)
  | @Arr2 m n _ => (m, n)
  end%N.

(* entry (i, j), 0 outside the matrix; only used inside the bounds *)
Definition get m n (A : 'M[F]_(m, n)) (i j : nat) : F :=
  if insub i is Some i' then
    if insub j is Some j' then A i' j' else 0
  else 0.

(* --------------------------------------------------------------------- *)
(* The linear-algebra calls leave a trace                                *)
(* --------------------------------------------------------------------- *)

(* Every call of np.linalg.inv and every @ is recorded with its operands,
   in the order Python performs them; the trace is kept up to the point
   where an exception is raised. *)
Inductive event : Type :=
| CallInv of ndarray
| CallMatmul of ndarray & ndarray.

Definition np (A : Type) : Type := (seq event * result A)%type.

Definition ret {A} (a : A) : np A := ([::], Ok a).
Definition raise {A} (e : exn) : np A := ([::], Raise e).
Definition tell (ev : event) : np unit := ([:: ev], Ok tt).

Definition bind {A B} (m : np A) (f : A -> np B) : np B :=
  match m with
  | (t, Ok a) => let: (t', r) := f a in (t ++ t', r)
  | (t, Raise e) => (t, Raise e)
  end.

Definition trace {A} (m : np A) : seq event := m.1.
Definition outcome {A} (m : np A) : result A := m.2.

Notation "x <- m ;; k" := (bind m (fun x => k))
  (at level 100, m at next level, right associativity).

(* --------------------------------------------------------------------- *)
(* NumPy calls used by the notebook                                      *)
(* --------------------------------------------------------------------- *)

(* np.diag(v): a 1-d array becomes the square matrix with v on the
   diagonal; a 2-d array gives its diagonal; a 0-d array is refused. *)
Definition diag (v : ndarray) : np ndarray :=
  match v with
  | Arr0 _ => raise ValueError
  | Arr1 n d => ret (Arr2 (diag_mx d))
  | Arr2 m n A => ret (Arr1 (\row_(i < minn m n) get A i i))
  end.

(* a ** 2, entrywise *)
Definition sqr (a : ndarray) : ndarray :=
  match a with
  | Arr0 x => Arr0 (x ^+ 2)
  | Arr1 n v => Arr1 (map_mx (fun x => x ^+ 2) v)
  | Arr2 m n A => Arr2 (map_mx (fun x => x ^+ 2) A)
  end.

(* a.T: transposes a 2-d array, leaves the others as they are *)
Definition T (a : ndarray) : ndarray :=
  match a with
  | Arr2 m n A => Arr2 A^T
  | _ => a
  end.

(* np.linalg.inv(a): LinAlgError unless a is 2-d, square and invertible.
   In exact arithmetic every singular matrix meets a zero pivot and is
   refused; F64.inv is the float64 counterpart. *)
Definition inv (a : ndarray) : np ndarray :=
  _ <- tell (CallInv a) ;;
  match a with
  | Arr2 m n A =>
      if m =P n is ReflectT e then
        let A' : 'M[F]_n := castmx (e, erefl n) A in
        if A' \in unitmx then ret (Arr2 (invmx A')) else raise LinAlgError
      else raise LinAlgError
  | _ => raise LinAlgError
  end.

(* a @ b: the inner dimensions must agree (ValueError otherwise, as for
   a 0-d operand); a 1-d operand is a row on the left and a column on the
   right, and its axis is dropped from the result. *)
Definition matmul (a b : ndarray) : np ndarray :=
  _ <- tell (CallMatmul a b) ;;
  match a, b with
  | Arr2 m n A, Arr2 p q B =>
      if n =P p is ReflectT e
      then ret (Arr2 (castmx (erefl m, e) A *m B)) else raise ValueError
  | Arr2 m n A, Arr1 p w =>
      if n =P p is ReflectT e
      then ret (Arr1 (castmx (erefl m, e) A *m w^T)^T) else raise ValueError
  | Arr1 n v, Arr2 p q B =>
      if n =P p is ReflectT e
      then ret (Arr1 (castmx (erefl 1%N, e) v *m B)) else raise ValueError
  | Arr1 n v, Arr1 p w =>
      if n =P p is ReflectT e
      then ret (Arr0 ((castmx (erefl 1%N, e) v *m w^T) 0 0))
      else raise ValueError
  | _, _ => raise ValueError
  end.

(* Broadcasting of one axis: the lengths agree or one of them is 1. *)
Definition bcompat (d1 d2 : nat) : bool :=
  [|| d1 == d2, d1 == 1%N | d2 == 1%N].
Definition bdim (d1 d2 : nat) : nat := if d1 == 1%N then d2 else d1.
Definition bidx (d i : nat) : nat := if d == 1%N then 0%N else i.

Definition bsub m n p q (A : 'M[F]_(m, n)) (B : 'M[F]_(p, q)) :
    'M[F]_(bdim m p, bdim n q) :=
  \matrix_(i, j) (get A (bidx m i) (bidx n j) - get B (bidx p i) (bidx q j)).

(* a - b with NumPy broadcasting; ValueError when the shapes cannot be
   broadcast together. *)
Definition sub (a b : ndarray) : np ndarray :=
  match a, b with
  | Arr0 x, Arr0 y => ret (Arr0 (x - y))
  | Arr0 x, Arr1 q w => ret (Arr1 (bsub (x%:M : 'M_1) w))
  | Arr1 n v, Arr0 y => ret (Arr1 (bsub v (y%:M : 'M_1)))
  | Arr0 x, Arr2 p q B => ret (Arr2 (bsub (x%:M : 'M_1) B))
  | Arr2 m n A, Arr0 y => ret (Arr2 (bsub A (y%:M : 'M_1)))
  | Arr1 n v, Arr1 q w =>
      if bcompat n q then ret (Arr1 (bsub v w)) else raise ValueError
  | Arr1 n v, Arr2 p q B =>
      if bcompat n q then ret (Arr2 (bsub v B)) else raise ValueError
  | Arr2 m n A, Arr1 q w =>
      if bcompat n q then ret (Arr2 (bsub A w)) else raise ValueError
  | Arr2 m n A, Arr2 p q B =>
      if bcompat m p && bcompat n q then ret (Arr2 (bsub A B))
      else raise ValueError
  end.

(* a[:, :-1]: all columns but the last; needs two axes *)
Definition drop_last_col (a : ndarray) : np ndarray :=
  match a with
  | Arr2 m n A =>
      ret (Arr2 (\matrix_(i < m, j < n.-1) A i (widen_ord (leq_pred n) j)))
  | _ => raise IndexError
  end.

(* a[:-1]: all entries but the last along the first axis *)
Definition drop_last (a : ndarray) : np ndarray :=
  match a with
  | Arr0 _ => raise IndexError
  | Arr1 n v => ret (Arr1 (\row_(j < n.-1) v 0 (widen_ord (leq_pred n) j)))
  | Arr2 m n A =>
      ret (Arr2 (\matrix_(i < m.-1, j < n) A (widen_ord (leq_pred m) i) j))
  end.

(* np.atleast_2d *)
Definition atleast_2d (a : ndarray) : ndarray :=
  match a with
  | Arr0 x => Arr2 (x%:M : 'M_1)
  | Arr1 n v => Arr2 v
  | Arr2 _ _ _ => a
  end.

(* stacking two 2-d arrays along the first axis *)
Definition concat0 (a b : ndarray) : np ndarray :=
  match a, b with
  | Arr2 m n A, Arr2 p q B =>
      if q =P n is ReflectT e
      then ret (Arr2 (col_mx A (castmx (erefl p, e) B)))
      else raise ValueError
  | _, _ => raise ValueError
  end.

(* np.vstack(tup): the arrays, made 2-d, are stacked row-wise; all must
   have the same number of columns, and tup must not be empty. *)
Fixpoint vstack (tup : seq ndarray) : np ndarray :=
  match tup with
  | [::] => raise ValueError
  | [:: a] => ret (atleast_2d a)
  | a :: rest => r <- vstack rest ;; concat0 (atleast_2d a) r
  end.

(* --------------------------------------------------------------------- *)
(* The notebook                                                          *)
(* --------------------------------------------------------------------- *)

(* def linreg(X, flux, err):
       inv_N = np.linalg.inv(np.diag(err)**2)
       betas = np.linalg.inv(X.T @ inv_N @ X) @ X.T @ inv_N @ flux
       cov = np.linalg.inv(X.T @ inv_N @ X)
       return betas, cov
   @ associates to the left and Python evaluates operands left to right. *)
Definition linreg (X flux err : ndarray) : np (ndarray * ndarray) :=
  d <- diag err ;;
  inv_N <- inv (sqr d) ;;
  b1 <- matmul (T X) inv_N ;;
  b2 <- matmul b1 X ;;
  b3 <- inv b2 ;;
  b4 <- matmul b3 (T X) ;;
  b5 <- matmul b4 inv_N ;;
  betas <- matmul b5 flux ;;
  c1 <- matmul (T X) inv_N ;;
  c2 <- matmul c1 X ;;
  cov <- inv c2 ;;
  ret (betas, cov).

(* X_obs = np.vstack([...]).T: the basis vectors become the columns *)
Definition X_obs (basis : seq ndarray) : np ndarray :=
  rows <- vstack basis ;;
  ret (T rows).

(* best_flux_model = X_obs @ betas *)
Definition best_flux_model (X betas : ndarray) : np ndarray :=
  matmul X betas.

(* flux_observed - (X_obs[:, :-1] @ betas[:-1]) *)
Definition recovered_signal (flux_observed X betas : ndarray) : np ndarray :=
  X' <- drop_last_col X ;;
  betas' <- drop_last betas ;;
  nuisance <- matmul X' betas' ;;
  sub flux_observed nuisance.

(* --------------------------------------------------------------------- *)
(* The estimator as the specification words it                           *)
(* --------------------------------------------------------------------- *)

(* W: the diagonal weight matrix with entries 1/sigma_i^2 *)
Definition weight n (sigma : 'rV[F]_n) : 'M[F]_n :=
  diag_mx (map_mx (fun s => (s ^+ 2)^-1) sigma).

(* X^T W X *)
Definition normal_mx n k (X : 'M[F]_(n, k)) (sigma : 'rV[F]_n) : 'M[F]_k :=
  X^T *m weight sigma *m X.

(* Cov = (X^T W X)^-1 *)
Definition wls_cov n k (X : 'M[F]_(n, k)) (sigma : 'rV[F]_n) : 'M[F]_k :=
  invmx (normal_mx X sigma).

(* beta = (X^T W X)^-1 X^T W y, as a 1-d array (a row) *)
Definition wls_beta n k (X : 'M[F]_(n, k)) (y sigma : 'rV[F]_n) : 'rV[F]_k :=
  (invmx (normal_mx X sigma) *m X^T *m weight sigma *m y^T)^T.

(* conditions on the uncertainties *)
Definition nonzero n (sigma : 'rV[F]_n) : Prop := forall i, sigma 0 i != 0.
Definition positive n (sigma : 'rV[F]_n) : Prop := forall i, 0 < sigma 0 i.

(* --------------------------------------------------------------------- *)
(* The calls of a run of linreg, for X of shape (n, k) and err of        *)
(* shape (n,)                                                            *)
(* --------------------------------------------------------------------- *)

(* line 1: the inversion of np.diag(err)**2 *)
Definition call_weight n (err : 'rV[F]_n) : event :=
  CallInv (Arr2 (diag_mx (map_mx (fun x => x ^+ 2) err))).

(* X.T @ inv_N @ X and its inversion (lines 2 and 3) *)
Definition calls_normal n k (X : 'M[F]_(n, k)) (err : 'rV[F]_n) : seq event :=
  [:: CallMatmul (Arr2 X^T) (Arr2 (weight err));
      CallMatmul (Arr2 (X^T *m weight err)) (Arr2 X);
      CallInv (Arr2 (normal_mx X err))].

(* the three products of line 2 that follow the inversion *)
Definition calls_solve n k (X : 'M[F]_(n, k)) (err : 'rV[F]_n)
    (flux : ndarray) : seq event :=
  [:: CallMatmul (Arr2 (invmx (normal_mx X err))) (Arr2 X^T);
      CallMatmul (Arr2 (invmx (normal_mx X err) *m X^T)) (Arr2 (weight err));
      CallMatmul (Arr2 (invmx (normal_mx X err) *m X^T *m weight err)) flux].

(* all calls of a run that returns *)
Definition calls_linreg n k (X : 'M[F]_(n, k)) (err : 'rV[F]_n)
    (flux : ndarray) : seq event :=
  call_weight err :: calls_normal X err ++ calls_solve X err flux ++
  calls_normal X err.

(* the i-th call of a run forms the product a @ b *)
Definition forms (a b : ndarray) (t : seq event) (i : nat) : Prop :=
  ohead (drop i t) = Some (CallMatmul a b).

(* a @ b is formed exactly once in a run *)
Definition formed_once (a b : ndarray) (t : seq event) : Prop :=
  exists! i, forms a b t i.

(* --------------------------------------------------------------------- *)
(* The other cells of the notebook                                       *)
(* --------------------------------------------------------------------- *)

(* flux_observed = X_true @ betas_soln *)
Definition flux_observed (X_true betas_soln : ndarray) : np ndarray :=
  matmul X_true betas_soln.

(* the fitting cell up to the fit, with the basis vectors as a parameter:
     X_obs = np.vstack([...]).T
     betas, cov = linreg(X_obs, flux_observed, err) *)
Definition fit (basis : seq ndarray) (flux err : ndarray) :
    np (ndarray * ndarray) :=
  X <- X_obs basis ;;
  linreg X flux err.

(* flux_observed - best_flux_model, the residuals plotted by the fitting
   cell, where best_flux_model = X_obs @ betas *)
Definition residuals (flux X betas : ndarray) : np ndarray :=
  model <- best_flux_model X betas ;;
  sub flux model.

(* the weighted sum of squared residuals of the coefficients b *)
Definition wrss n k (X : 'M[F]_(n, k)) (y sigma : 'rV[F]_n) (b : 'rV[F]_k) : F :=
  \sum_i ((y 0 i - (X *m b^T) i 0) / sigma 0 i) ^+ 2.

(* 1-d arrays of length n stacked as the rows of a matrix *)
Definition stack n (rows : seq 'rV[F]_n) : 'M[F]_(size rows, n) :=
  \matrix_(i, j) (nth 0 rows i) 0 j.

(* --------------------------------------------------------------------- *)
(* Evaluation lemmas for the NumPy calls                                 *)
(* --------------------------------------------------------------------- *)

Lemma outcome_bind A B (m : np A) (f : A -> np B) :
  outcome (bind m f) =
  match outcome m with Ok a => outcome (f a) | Raise e => Raise e end.
Proof. by case: m => t [a|e] //=; case: (f a). Qed.

Lemma bind_retl A B (a : A) (f : A -> np B) : bind (ret a) f = f a.
Proof. by rewrite /bind /=; case: (f a). Qed.

Lemma inv_unit n (A : 'M[F]_n) :
  A \in unitmx -> inv (Arr2 A) = ([:: CallInv (Arr2 A)], Ok (Arr2 (invmx A))).
Proof.
move=> uA; rewrite /inv /=; case: eqP => [e|//].
by rewrite (eq_axiomK e) castmx_id uA.
Qed.

Lemma inv_singular n (A : 'M[F]_n) :
  A \notin unitmx -> inv (Arr2 A) = ([:: CallInv (Arr2 A)], Raise LinAlgError).
Proof.
move=> uA; rewrite /inv /=; case: eqP => [e|//].
by rewrite (eq_axiomK e) castmx_id (negbTE uA).
Qed.

Lemma matmul22 m n p (A : 'M[F]_(m, n)) (B : 'M[F]_(n, p)) :
  matmul (Arr2 A) (Arr2 B) =
  ([:: CallMatmul (Arr2 A) (Arr2 B)], Ok (Arr2 (A *m B))).
Proof.
by rewrite /matmul /=; case: eqP => [e|//]; rewrite (eq_axiomK e) castmx_id.
Qed.

Lemma matmul21 m n (A : 'M[F]_(m, n)) (w : 'rV[F]_n) :
  matmul (Arr2 A) (Arr1 w) =
  ([:: CallMatmul (Arr2 A) (Arr1 w)], Ok (Arr1 (A *m w^T)^T)).
Proof.
by rewrite /matmul /=; case: eqP => [e|//]; rewrite (eq_axiomK e) castmx_id.
Qed.

Lemma matmul22_mismatch m n p q (A : 'M[F]_(m, n)) (B : 'M[F]_(p, q)) :
  n != p ->
  matmul (Arr2 A) (Arr2 B) =
  ([:: CallMatmul (Arr2 A) (Arr2 B)], Raise ValueError).
Proof. by move=> /eqP ne; rewrite /matmul /=; case: eqP. Qed.

Lemma matmul21_mismatch m n p (A : 'M[F]_(m, n)) (w : 'rV[F]_p) :
  n != p ->
  matmul (Arr2 A) (Arr1 w) =
  ([:: CallMatmul (Arr2 A) (Arr1 w)], Raise ValueError).
Proof. by move=> /eqP ne; rewrite /matmul /=; case: eqP. Qed.

(* --------------------------------------------------------------------- *)
(* The weight matrix                                                     *)
(* --------------------------------------------------------------------- *)

Lemma positive_nonzero n (sigma : 'rV[F]_n) : positive sigma -> nonzero sigma.
Proof. by move=> pos i; rewrite gt_eqF. Qed.

Lemma sqr_diag_mx n (d : 'rV[F]_n) :
  map_mx (fun x => x ^+ 2) (diag_mx d) = diag_mx (map_mx (fun x => x ^+ 2) d).
Proof.
apply/matrixP => i j; rewrite !mxE.
by case: (i == j); rewrite ?mulr1n // mulr0n expr0n.
Qed.

Lemma diag_mx_unit n (d : 'rV[F]_n) :
  reflect (nonzero d) (diag_mx d \in unitmx).
Proof.
rewrite unitmxE det_diag unitfE.
by apply: (iffP (prodf_neq0 _ _)) => h i; [apply: h | move=> _; apply: h].
Qed.

Lemma invmx_diag n (d : 'rV[F]_n) :
  nonzero d -> invmx (diag_mx d) = diag_mx (map_mx (fun x => x^-1) d).
Proof.
move=> nz; have ud := introT (diag_mx_unit d) nz.
rewrite -[RHS](mulKmx ud) mulmx_diag -[LHS]mulmx1; congr (_ *m _).
rewrite -diag_const_mx; congr diag_mx.
by apply/rowP => j; rewrite !mxE divff.
Qed.

(* np.linalg.inv(np.diag(err)**2) is the weight matrix when no
   uncertainty is zero ... *)
Lemma inv_N_ok n (err : 'rV[F]_n) :
  nonzero err ->
  inv (sqr (Arr2 (diag_mx err))) =
  ([:: call_weight err],
   Ok (Arr2 (weight err))).
Proof.
move=> nz; rewrite /sqr sqr_diag_mx.
have nz2 : nonzero (map_mx (fun x => x ^+ 2) err).
  by move=> i; rewrite mxE sqrf_eq0.
rewrite (inv_unit (introT (diag_mx_unit _) nz2)) invmx_diag // /weight.
congr (_, Ok (Arr2 (diag_mx _))).
by apply/rowP => j; rewrite !mxE.
Qed.

(* ... and fails otherwise. *)
Lemma inv_N_zero n (err : 'rV[F]_n) :
  ~ nonzero err ->
  inv (sqr (Arr2 (diag_mx err))) =
  ([:: call_weight err],
   Raise LinAlgError).
Proof.
move=> nz; rewrite /sqr sqr_diag_mx inv_singular //.
apply/negP => /diag_mx_unit nz2; apply: nz => i.
by have := nz2 i; rewrite mxE sqrf_eq0.
Qed.

(* --------------------------------------------------------------------- *)
(* Running linreg                                                        *)
(* --------------------------------------------------------------------- *)

Lemma linreg_ok n k (X : 'M[F]_(n, k)) (y err : 'rV[F]_n) :
  nonzero err -> normal_mx X err \in unitmx ->
  linreg (Arr2 X) (Arr1 y) (Arr1 err) =
  (calls_linreg X err (Arr1 y),
   Ok (Arr1 (wls_beta X y err), Arr2 (wls_cov X err))).
Proof.
move=> nz uA; rewrite /linreg /= inv_N_ok //=.
by do ?[rewrite matmul22 /= | rewrite matmul21 /= | rewrite (inv_unit uA) /=].
Qed.

(* --------------------------------------------------------------------- *)
(* Algebra of the normal equations                                       *)
(* --------------------------------------------------------------------- *)

Section Normal.

Variables (n k : nat) (X : 'M[F]_(n, k)) (sigma : 'rV[F]_n).

(* v (X^T W X) v^T is the weighted sum of the squares of X v^T *)
Lemma quad_form (v : 'rV[F]_k) :
  (v *m normal_mx X sigma *m v^T) 0 0 =
  \sum_j (sigma 0 j ^+ 2)^-1 * (v *m X^T) 0 j ^+ 2.
Proof.
have -> : v *m normal_mx X sigma *m v^T =
          v *m X^T *m weight sigma *m (v *m X^T)^T.
  by rewrite trmx_mul trmxK /normal_mx !mulmxA.
set u := v *m X^T; rewrite mxE; apply: eq_bigr => j _.
by rewrite mul_mx_diag !mxE mulrAC -expr2 mulrC.
Qed.

Lemma quad_form_ge0 (v : 'rV[F]_k) :
  0 <= (v *m normal_mx X sigma *m v^T) 0 0.
Proof.
rewrite quad_form; apply: sumr_ge0 => j _.
by rewrite mulr_ge0 ?invr_ge0 ?sqr_ge0.
Qed.

Lemma normal_mx_ker (v : 'rV[F]_k) :
  nonzero sigma -> v *m normal_mx X sigma = 0 -> v *m X^T = 0.
Proof.
move=> nz vA0; apply/rowP => j; rewrite [RHS]mxE.
have: (v *m normal_mx X sigma *m v^T) 0 0 = 0 by rewrite vA0 mul0mx mxE.
have ge0 (i : 'I_n) :
    true -> 0 <= (sigma 0 i ^+ 2)^-1 * (v *m X^T) 0 i ^+ 2.
  by rewrite mulr_ge0 ?invr_ge0 ?sqr_ge0.
rewrite quad_form => /(psumr_eq0P ge0) /(_ j isT) /eqP.
by rewrite mulf_eq0 invr_eq0 !sqrf_eq0 (negbTE (nz j)) /= => /eqP.
Qed.

(* X^T W X is invertible exactly when the columns of X are independent *)
Lemma normal_mx_unit :
  nonzero sigma -> (normal_mx X sigma \in unitmx) = (\rank X == k).
Proof.
move=> nz; apply/idP/idP => [uA | /eqP rX].
  rewrite eqn_leq rank_leq_col /=.
  by rewrite -{1}(mxrank_unit uA) /normal_mx mxrankM_maxr.
rewrite -row_free_unit; apply: inj_row_free => v /(normal_mx_ker nz) vX.
have fX : row_free X^T by rewrite /row_free mxrank_tr rX.
by apply/eqP; rewrite -(mulmx_free_eq0 _ fX) vX.
Qed.

(* exact data y = X beta are fitted by beta itself *)
Lemma wls_beta_exact (b : 'rV[F]_k) :
  normal_mx X sigma \in unitmx -> wls_beta X (b *m X^T) sigma = b.
Proof.
move=> uA; rewrite /wls_beta.
have -> : (b *m X^T)^T = X *m b^T by rewrite trmx_mul trmxK.
have -> : invmx (normal_mx X sigma) *m X^T *m weight sigma *m (X *m b^T) =
          invmx (normal_mx X sigma) *m (normal_mx X sigma *m b^T).
  by rewrite /normal_mx !mulmxA.
by rewrite mulKmx // trmxK.
Qed.

(* the diagonal of the covariance is a value of the quadratic form *)
Lemma wls_cov_diag (i : 'I_k) :
  normal_mx X sigma \in unitmx ->
  wls_cov X sigma i i =
  (row i (wls_cov X sigma) *m normal_mx X sigma *m
   (row i (wls_cov X sigma))^T) 0 0.
Proof.
move=> uA; rewrite /wls_cov -row_mul mulVmx //.
by rewrite [row i 1%:M]rowE mulmx1 -rowE !mxE.
Qed.

Lemma wls_cov_diag_ge0 (i : 'I_k) :
  normal_mx X sigma \in unitmx -> 0 <= wls_cov X sigma i i.
Proof. by move=> uA; rewrite wls_cov_diag // quad_form_ge0. Qed.

(* the coefficients are the covariance applied to X^T W y *)
Lemma wls_beta_cov (y : 'rV[F]_n) :
  wls_beta X y sigma = (wls_cov X sigma *m (X^T *m weight sigma *m y^T))^T.
Proof. by rewrite /wls_beta /wls_cov !mulmxA. Qed.

End Normal.

Section Rescale.

Variables (n k : nat) (X : 'M[F]_(n, k)) (sigma : 'rV[F]_n).

(* a common factor of the uncertainties *)
Lemma weight_scale (c : F) :
  weight (c *: sigma) = (c ^+ 2)^-1 *: weight sigma.
Proof.
apply/matrixP => i j; rewrite !mxE exprMn invfM.
by case: (i == j); rewrite ?mulr1n // !mulr0n mulr0.
Qed.

Lemma normal_mx_scale (c : F) :
  normal_mx X (c *: sigma) = (c ^+ 2)^-1 *: normal_mx X sigma.
Proof. by rewrite /normal_mx weight_scale -scalemxAr -scalemxAl. Qed.

Lemma wls_cov_scale (c : F) :
  c != 0 -> normal_mx X sigma \in unitmx ->
  wls_cov X (c *: sigma) = c ^+ 2 *: wls_cov X sigma.
Proof.
move=> c0 uA; rewrite /wls_cov normal_mx_scale invmxZ ?invrK //.
by rewrite unitmxZ // unitfE invr_eq0 sqrf_eq0.
Qed.

Lemma wls_beta_scale (c : F) (y : 'rV[F]_n) :
  c != 0 -> normal_mx X sigma \in unitmx ->
  wls_beta X y (c *: sigma) = wls_beta X y sigma.
Proof.
move=> c0 uA; rewrite !wls_beta_cov wls_cov_scale // weight_scale.
rewrite -scalemxAr -!scalemxAl -scalemxAr scalerA.
by rewrite divff ?scale1r // sqrf_eq0.
Qed.

(* the uncertainties enter through their squares only *)
Lemma sqr_abs :
  map_mx (fun x => x ^+ 2) (map_mx Num.norm sigma) =
  map_mx (fun x => x ^+ 2) sigma.
Proof. by apply/rowP => j; rewrite !mxE real_normK ?num_real. Qed.

End Rescale.

(* --------------------------------------------------------------------- *)
(* Runs of linreg that raise                                             *)
(* --------------------------------------------------------------------- *)

Lemma zero_entry n (err : 'rV[F]_n) :
  (exists i, err 0 i = 0) -> ~ nonzero err.
Proof. by case=> i e0 /(_ i); rewrite e0 eqxx. Qed.

(* a zero uncertainty: the first inversion fails, whatever X and flux *)
Lemma linreg_zero_err n (err : 'rV[F]_n) (X flux : ndarray) :
  ~ nonzero err ->
  linreg X flux (Arr1 err) =
  ([:: call_weight err],
   Raise LinAlgError).
Proof. by move=> nz; rewrite /linreg /= inv_N_zero. Qed.

(* X and err disagree: the first product fails *)
Lemma linreg_rows_mismatch m k n (X : 'M[F]_(m, k)) (err : 'rV[F]_n)
    (flux : ndarray) :
  nonzero err -> m != n ->
  linreg (Arr2 X) flux (Arr1 err) =
  ([:: call_weight err;
       CallMatmul (Arr2 X^T) (Arr2 (weight err))],
   Raise ValueError).
Proof.
by move=> nz ne; rewrite /linreg /= inv_N_ok //= matmul22_mismatch.
Qed.

(* X^T W X is singular: its inversion fails, whatever flux *)
Lemma linreg_singular n k (X : 'M[F]_(n, k)) (err : 'rV[F]_n)
    (flux : ndarray) :
  nonzero err -> normal_mx X err \notin unitmx ->
  linreg (Arr2 X) flux (Arr1 err) =
  (call_weight err ::
   calls_normal X err, Raise LinAlgError).
Proof.
move=> nz uA; rewrite /linreg /= inv_N_ok //= !matmul22 /= matmul22 /=.
by rewrite (inv_singular uA).
Qed.

(* flux disagrees with X and err: the last product of line 2 fails *)
Lemma linreg_flux_mismatch n k p (X : 'M[F]_(n, k)) (err : 'rV[F]_n)
    (y : 'rV[F]_p) :
  nonzero err -> normal_mx X err \in unitmx -> n != p ->
  linreg (Arr2 X) (Arr1 y) (Arr1 err) =
  (call_weight err ::
   calls_normal X err ++ calls_solve X err (Arr1 y), Raise ValueError).
Proof.
move=> nz uA ne; rewrite /linreg /= inv_N_ok //=.
do ?[rewrite matmul22 /= | rewrite (inv_unit uA) /=].
by rewrite matmul21_mismatch.
Qed.

(* --------------------------------------------------------------------- *)
(* Slicing, subtraction and stacking                                     *)
(* --------------------------------------------------------------------- *)

Lemma get_in m n (A : 'M[F]_(m, n)) (i : 'I_m) (j : 'I_n) :
  get A i j = A i j.
Proof. by rewrite /get !valK. Qed.

Lemma bdimnn n : bdim n n = n.
Proof. by rewrite /bdim; case: eqP. Qed.

Lemma bidx_in n (j : nat) : (j < n)%N -> bidx n j = j.
Proof. by rewrite /bidx; case: eqP => // ->; rewrite ltnS leqn0 => /eqP. Qed.

Lemma Arr1_cast n p (e : n = p) (v : 'rV[F]_n) :
  Arr1 (castmx (erefl 1%N, e) v) = Arr1 v.
Proof. by case: p / e; rewrite castmx_id. Qed.

(* two 1-d arrays of the same length are subtracted entry by entry *)
Lemma sub11 n (v w : 'rV[F]_n) : sub (Arr1 v) (Arr1 w) = ret (Arr1 (v - w)).
Proof.
rewrite /sub /bcompat eqxx /=; congr (ret _).
rewrite -(Arr1_cast (bdimnn n) (bsub v w)); congr Arr1.
apply/rowP => j; rewrite castmxE !mxE /=.
by rewrite (bidx_in (ltn_ord j)) -[bidx 1 _]/(val (0 : 'I_1)) !get_in.
Qed.

(* X[:, :-1] keeps all columns but the last one *)
Lemma drop_last_colE n k (X : 'M[F]_(n, k.+1)) :
  drop_last_col (Arr2 X) = ret (Arr2 (col' ord_max X)).
Proof.
congr (ret (Arr2 _)); apply/matrixP => i j; rewrite !mxE.
by congr (X _ _); apply: val_inj; rewrite /= /bump leqNgt ltn_ord.
Qed.

Lemma drop_lastE k (b : 'rV[F]_k.+1) :
  drop_last (Arr1 b) = ret (Arr1 (col' ord_max b)).
Proof.
congr (ret (Arr1 _)); apply/rowP => j; rewrite !mxE.
by congr (b _ _); apply: val_inj; rewrite /= /bump leqNgt ltn_ord.
Qed.

Lemma atleast_2d_cols a : (shape2 (atleast_2d a)).2 = (shape2 a).2.
Proof. by case: a. Qed.

Lemma concat0_ok a b c :
  outcome (concat0 a b) = Ok c ->
  (shape2 a).2 = (shape2 c).2 /\ (shape2 b).2 = (shape2 c).2.
Proof.
case: a => [x|n v|m n A] //; case: b => [y|q w|p q B] //=.
by case: eqP => // e [<-].
Qed.

Lemma concat0_raise a b e : outcome (concat0 a b) = Raise e -> e = ValueError.
Proof.
case: a => [x|n v|m n A]; case: b => [y|q w|p q B] /=;
  by [case: (q =P n) => // _ [] | case].
Qed.

(* np.vstack raises nothing but ValueError ... *)
Lemma vstack_raise tup e : outcome (vstack tup) = Raise e -> e = ValueError.
Proof.
elim: tup e => [|a [|b rest] IH] e; [by case | by [] | ].
rewrite [vstack _]/(bind (vstack (b :: rest)) _) outcome_bind.
case E: (outcome (vstack (b :: rest))) => [r|e'].
  exact: concat0_raise.
by move=> [<-]; exact: (IH _ E).
Qed.

(* ... and returns only when all arrays have the same number of columns *)
Lemma vstack_cols tup a :
  outcome (vstack tup) = Ok a ->
  all (fun b => (shape2 b).2 == (shape2 a).2) tup.
Proof.
elim: tup a => [|b [|b' rest] IH] a //.
  by case=> <-; rewrite /= atleast_2d_cols eqxx.
rewrite [vstack _]/(bind (vstack (b' :: rest)) _) outcome_bind.
case E: (outcome (vstack (b' :: rest))) => [r|//] /concat0_ok [ea er].
apply/andP; split; first by rewrite -ea atleast_2d_cols.
by have := IH _ E; rewrite er.
Qed.

Lemma vstack_mismatch tup :
  ~~ constant [seq (shape2 b).2 | b <- tup] ->
  outcome (vstack tup) = Raise ValueError.
Proof.
case E: (outcome (vstack tup)) => [a|e]; last by rewrite (vstack_raise E).
have := vstack_cols E; rewrite -(all_map (fun b => (shape2 b).2) (pred1 _)).
by move/all_pred1_constant => ->.
Qed.

(* the design matrix is not built from basis vectors of unequal lengths *)
Lemma X_obs_mismatch basis :
  ~~ constant [seq (shape2 b).2 | b <- basis] ->
  outcome (X_obs basis) = Raise ValueError.
Proof. by move=> /vstack_mismatch E; rewrite /X_obs outcome_bind E. Qed.

(* --------------------------------------------------------------------- *)
(* Dependent columns                                                     *)
(* --------------------------------------------------------------------- *)

(* a non-trivial combination of the columns that vanishes *)
Lemma dependent_rank n k (X : 'M[F]_(n, k)) (v : 'rV[F]_k) :
  v != 0 -> v *m X^T = 0 -> (\rank X < k)%N.
Proof.
move=> v0 vX; rewrite ltn_neqAle rank_leq_col andbT.
apply: contra v0 => rX; have fX : row_free X^T by rewrite /row_free mxrank_tr.
by rewrite -(mulmx_free_eq0 _ fX) vX.
Qed.

(* one column a multiple of another one (a = 1: two identical columns) *)
Lemma proportional_cols_rank n k (X : 'M[F]_(n, k)) (j1 j2 : 'I_k) (a : F) :
  j1 != j2 -> col j1 X = a *: col j2 X -> (\rank X < k)%N.
Proof.
move=> ne eX; apply: (@dependent_rank _ _ _ (delta_mx 0 j1 - a *: delta_mx 0 j2)).
  apply/eqP => /rowP /(_ j1); rewrite !mxE !eqxx /= (negbTE ne) mulr0 subr0.
  by move/eqP; rewrite oner_eq0.
rewrite mulmxBl -scalemxAl -!rowE -!tr_col eX linearZ /=.
by rewrite subrr.
Qed.

(* more parameters than observations *)
Lemma wide_rank n k (X : 'M[F]_(n, k)) : (n < k)%N -> (\rank X < k)%N.
Proof. exact/leq_ltn_trans/rank_leq_row. Qed.

(* well-posed problems: independent columns, no zero uncertainty *)
Lemma wellposed_unit n k (X : 'M[F]_(n, k)) (sigma : 'rV[F]_n) :
  \rank X = k -> nonzero sigma -> normal_mx X sigma \in unitmx.
Proof. by move=> rX nz; rewrite normal_mx_unit // rX. Qed.

Lemma nonzeroP n (sigma : 'rV[F]_n) :
  reflect (nonzero sigma) [forall i, sigma 0 i != 0].
Proof. exact: forallP. Qed.

(* two different calls form the same product: it is not formed once *)
Lemma formed_twice (a b : ndarray) (t : seq event) (i j : nat) :
  i != j -> forms a b t i -> forms a b t j -> ~ formed_once a b t.
Proof.
move=> ne fi fj [i0 [_ uniq]]; move: ne.
by rewrite -(uniq _ fi) -(uniq _ fj) eqxx.
Qed.

(* the uncertainties are only used squared *)
Lemma linreg_abs n (sigma : 'rV[F]_n) (X flux : ndarray) :
  linreg X flux (Arr1 (map_mx Num.norm sigma)) = linreg X flux (Arr1 sigma).
Proof. by rewrite /linreg /= !sqr_diag_mx sqr_abs. Qed.

(* ===================================================================== *)
(* The claims                                                            *)
(* ===================================================================== *)

(** C1: for X (n x k), y and sigma (length n, all entries > 0) with
    X^T W X invertible, linreg returns the coefficients
    (X^T W X)^-1 X^T W y, a 1-d array of length k, and the covariance
    (X^T W X)^-1, a k x k array, where W is diagonal with entries
    1/sigma_i^2. *)
Theorem linreg_normal_equations n k (X : 'M[F]_(n, k)) (y sigma : 'rV[F]_n) :
  positive sigma -> normal_mx X sigma \in unitmx ->
  outcome (linreg (Arr2 X) (Arr1 y) (Arr1 sigma)) =
    Ok (Arr1 (wls_beta X y sigma), Arr2 (wls_cov X sigma)) /\
  shape2 (Arr1 (wls_beta X y sigma)) = (1%N, k) /\
  shape2 (Arr2 (wls_cov X sigma)) = (k, k) /\
  (forall i j, weight sigma i j = if i == j then 1 / sigma 0 i ^+ 2 else 0).
Proof.
move=> /positive_nonzero nz uA; rewrite linreg_ok //; do !split.
by move=> i j; rewrite !mxE div1r; case: (i == j).
Qed.

(** C2: when the k columns of X are linearly independent and the
    observations are exactly y = X beta_true, linreg returns the
    coefficients beta_true, whatever the positive uncertainties are. *)
Theorem linreg_recovers_exact n k (X : 'M[F]_(n, k)) (beta_true : 'rV[F]_k)
    (sigma : 'rV[F]_n) :
  \rank X = k -> positive sigma ->
  exists cov,
    outcome (linreg (Arr2 X) (Arr1 (X *m beta_true^T)^T) (Arr1 sigma)) =
    Ok (Arr1 beta_true, cov).
Proof.
move=> rX /positive_nonzero nz; have uA := wellposed_unit rX nz.
exists (Arr2 (wls_cov X sigma)); rewrite linreg_ok //=.
by rewrite trmx_mul trmxK wls_beta_exact.
Qed.

(** C3 (amended): when the columns of X are linearly dependent (rank
    below k: two identical columns, a column a multiple of another one,
    k > n), X^T W X is not invertible, and when nothing is rounded linreg
    returns nothing and raises the singular-matrix error of np.linalg.inv
    (LinAlgError).  linreg has no rank check of its own: in float64, where
    np.linalg.inv raises only on a pivot that is exactly zero, it can
    return a meaningless result instead. *)
Theorem linreg_singular_design n k (X : 'M[F]_(n, k)) (sigma : 'rV[F]_n)
    (flux : ndarray) :
  (\rank X < k)%N ->
  (nonzero sigma -> normal_mx X sigma \notin unitmx) /\
  outcome (linreg (Arr2 X) flux (Arr1 sigma)) = Raise LinAlgError.
Proof.
move=> rX; have sA : nonzero sigma -> normal_mx X sigma \notin unitmx.
  by move=> nz; rewrite normal_mx_unit // neq_ltn rX.
split=> //.
case: (boolP [forall i, sigma 0 i != 0]) => [/nonzeroP nz|nnz].
  by rewrite linreg_singular // sA.
by rewrite linreg_zero_err // => /nonzeroP nz; rewrite nz in nnz.
Qed.

(** C4 (amended): when some uncertainty is 0, linreg fails at its first
    operation, the inversion of np.diag(err)**2, with LinAlgError, before X
    or flux is used and before anything is returned; no entry is replaced
    by another value.  (A negative entry is not rejected.) *)
Theorem linreg_zero_uncertainty n (sigma : 'rV[F]_n) (X flux : ndarray) :
  (exists i, sigma 0 i = 0) ->
  linreg X flux (Arr1 sigma) = ([:: call_weight sigma], Raise LinAlgError).
Proof. by move=> /zero_entry nz; rewrite linreg_zero_err. Qed.

(** C5: for a well-posed input (independent columns, positive sigma) and
    c > 0, linreg with the uncertainties c * sigma returns the same
    coefficients as with sigma, and the covariance multiplied by c^2. *)
Theorem linreg_uncertainty_scale n k (X : 'M[F]_(n, k)) (y sigma : 'rV[F]_n)
    (c : F) :
  \rank X = k -> positive sigma -> 0 < c ->
  exists (beta : 'rV[F]_k) (cov : 'M[F]_k),
    outcome (linreg (Arr2 X) (Arr1 y) (Arr1 sigma)) =
      Ok (Arr1 beta, Arr2 cov) /\
    outcome (linreg (Arr2 X) (Arr1 y) (Arr1 (c *: sigma))) =
      Ok (Arr1 beta, Arr2 (c ^+ 2 *: cov)).
Proof.
move=> rX /positive_nonzero nz c_gt0; have c0 : c != 0 by rewrite gt_eqF.
have uA := wellposed_unit rX nz.
have nzc : nonzero (c *: sigma) by move=> i; rewrite mxE mulf_neq0.
exists (wls_beta X y sigma), (wls_cov X sigma).
rewrite !linreg_ok //= ?wls_beta_scale ?wls_cov_scale //.
exact: wellposed_unit.
Qed.

(** C6: for a well-posed input every diagonal entry of the covariance
    returned by linreg is >= 0. *)
Theorem linreg_cov_diag_ge0 n k (X : 'M[F]_(n, k)) (y sigma : 'rV[F]_n) :
  \rank X = k -> positive sigma ->
  exists (beta : 'rV[F]_k) (cov : 'M[F]_k),
    outcome (linreg (Arr2 X) (Arr1 y) (Arr1 sigma)) =
      Ok (Arr1 beta, Arr2 cov) /\
    forall i, 0 <= cov i i.
Proof.
move=> rX /positive_nonzero nz; have uA := wellposed_unit rX nz.
exists (wls_beta X y sigma), (wls_cov X sigma); rewrite linreg_ok //.
by split=> // i; apply: wls_cov_diag_ge0.
Qed.

(** C7: the model vector is the product X betas; the recovered signal is
    y minus the product of X without its last column (the signal template)
    and betas without its last entry. *)
Theorem reconstruction n k (X : 'M[F]_(n, k.+1)) (betas : 'rV[F]_k.+1)
    (y : 'rV[F]_n) :
  outcome (best_flux_model (Arr2 X) (Arr1 betas)) =
    Ok (Arr1 (X *m betas^T)^T) /\
  outcome (recovered_signal (Arr1 y) (Arr2 X) (Arr1 betas)) =
    Ok (Arr1 (y - (col' ord_max X *m (col' ord_max betas)^T)^T)).
Proof.
split; first by rewrite /best_flux_model matmul21.
rewrite /recovered_signal drop_last_colE drop_lastE !bind_retl outcome_bind.
by rewrite matmul21 [outcome (_, _)]/=; cbv beta iota; rewrite sub11.
Qed.

(** C8 (amended): when the row count of X, the length of y and the length
    of err disagree, linreg returns nothing and nothing is truncated or
    padded; the error is the ValueError of the first product whose
    operands disagree, unless an inversion evaluated before it fails with
    LinAlgError.  The mismatch is not detected before numeric work: the
    run always starts with the inversion of np.diag(err)**2.  Basis
    vectors of unequal lengths make np.vstack raise ValueError, so that no
    design matrix is built. *)
Theorem linreg_dimension_mismatch :
  (forall m k n p (X : 'M[F]_(m, k)) (y : 'rV[F]_p) (err : 'rV[F]_n),
     (m != n) || (n != p) ->
     exists e t,
       linreg (Arr2 X) (Arr1 y) (Arr1 err) = (call_weight err :: t, Raise e)) /\
  (forall m k n (X : 'M[F]_(m, k)) (flux : ndarray) (err : 'rV[F]_n),
     nonzero err -> m != n ->
     outcome (linreg (Arr2 X) flux (Arr1 err)) = Raise ValueError) /\
  (forall n k p (X : 'M[F]_(n, k)) (y : 'rV[F]_p) (err : 'rV[F]_n),
     nonzero err -> normal_mx X err \in unitmx -> n != p ->
     outcome (linreg (Arr2 X) (Arr1 y) (Arr1 err)) = Raise ValueError) /\
  (forall basis : seq ndarray,
     ~~ constant [seq (shape2 b).2 | b <- basis] ->
     outcome (X_obs basis) = Raise ValueError).
Proof.
split; last (split; last split).
- move=> m k n p X y err dis.
  case: (boolP [forall i, err 0 i != 0]) => [/nonzeroP nz|nnz]; last first.
    exists LinAlgError, [::]; rewrite linreg_zero_err //.
    by move=> /nonzeroP nz; rewrite nz in nnz.
  case: (eqVneq m n) => [e|ne]; last first.
    by exists ValueError; eexists; rewrite linreg_rows_mismatch.
  subst m; rewrite eqxx /= in dis.
  case: (boolP (normal_mx X err \in unitmx)) => [uA|uA].
    by exists ValueError; eexists; rewrite linreg_flux_mismatch.
  by exists LinAlgError; eexists; rewrite linreg_singular.
- by move=> m k n X flux err nz ne; rewrite linreg_rows_mismatch.
- by move=> n k p X y err nz uA ne; rewrite linreg_flux_mismatch.
- exact: X_obs_mismatch.
Qed.

(** C9 (amended): in a run on a well-posed input the product X^T W X is
    formed twice (calls 2 and 8 of the run, counted from 0) and inverted
    twice, from the same operands; the coefficients returned are the
    returned covariance applied to X^T W y. *)
Theorem linreg_inner_matrix n k (X : 'M[F]_(n, k)) (y sigma : 'rV[F]_n) :
  positive sigma -> normal_mx X sigma \in unitmx ->
  trace (linreg (Arr2 X) (Arr1 y) (Arr1 sigma)) =
    calls_linreg X sigma (Arr1 y) /\
  forms (Arr2 (X^T *m weight sigma)) (Arr2 X)
    (trace (linreg (Arr2 X) (Arr1 y) (Arr1 sigma))) 2 /\
  forms (Arr2 (X^T *m weight sigma)) (Arr2 X)
    (trace (linreg (Arr2 X) (Arr1 y) (Arr1 sigma))) 8 /\
  exists (beta : 'rV[F]_k) (cov : 'M[F]_k),
    outcome (linreg (Arr2 X) (Arr1 y) (Arr1 sigma)) =
      Ok (Arr1 beta, Arr2 cov) /\
    beta = (cov *m (X^T *m weight sigma *m y^T))^T.
Proof.
move=> /positive_nonzero nz uA; rewrite linreg_ok //; do 3!split=> //.
by exists (wls_beta X y sigma), (wls_cov X sigma); rewrite -wls_beta_cov.
Qed.

(** C10: for sigma without zero entry, linreg with sigma and linreg with
    the absolute values of sigma run identically, and return the same
    coefficients and covariance: negative uncertainties are accepted and
    weighted like positive ones. *)
Theorem linreg_sign_invariant n k (X : 'M[F]_(n, k)) (y sigma : 'rV[F]_n) :
  nonzero sigma ->
  linreg (Arr2 X) (Arr1 y) (Arr1 sigma) =
    linreg (Arr2 X) (Arr1 y) (Arr1 (map_mx Num.norm sigma)) /\
  (\rank X = k ->
   exists (beta : 'rV[F]_k) (cov : 'M[F]_k),
     outcome (linreg (Arr2 X) (Arr1 y) (Arr1 sigma)) =
       Ok (Arr1 beta, Arr2 cov) /\
     outcome (linreg (Arr2 X) (Arr1 y) (Arr1 (map_mx Num.norm sigma))) =
       Ok (Arr1 beta, Arr2 cov)).
Proof.
move=> nz; rewrite linreg_abs; split=> // rX.
exists (wls_beta X y sigma), (wls_cov X sigma).
by rewrite linreg_ok //; apply: wellposed_unit.
Qed.

End Numpy.

(* ===================================================================== *)
(* The sample inputs                                                     *)
(* ===================================================================== *)

Lemma err2_positive : positive err2.
Proof. by move=> i; rewrite mxE. Qed.

Lemma sigma_one_positive : positive sigma_one.
Proof. by move=> i; rewrite !mxE ord1. Qed.

Lemma sigma_neg_nonzero : nonzero sigma_neg.
Proof. by move=> i; rewrite !mxE ord1. Qed.

Lemma sigma_neg_entry : exists i, sigma_neg 0 i <= 0.
Proof. by exists 0; rewrite !mxE. Qed.

Lemma sigma_zero_entry : exists i, sigma_zero 0 i = 0.
Proof. by exists 0; rewrite mxE. Qed.

Lemma rank_X1 : \rank X1 = 1%N.
Proof. exact: mxrank1. Qed.

Lemma rank_X2 : \rank X2 = 1%N.
Proof.
apply/eqP; rewrite eqn_leq rank_leq_col lt0n mxrank_eq0.
by apply/eqP => /matrixP /(_ 0 0); rewrite !mxE.
Qed.

Lemma rank_X_dup : (\rank X_dup < 2)%N.
Proof.
apply: (@proportional_cols_rank _ _ _ _ 0 (lift 0 0) 1) => //.
by rewrite scale1r; apply/colP => i; rewrite !mxE.
Qed.

Lemma weight_sigma_neg : weight sigma_neg = 1%:M.
Proof.
apply/matrixP => i j; rewrite !mxE !ord1 /= !mulr1n.
by rewrite sqrrN expr1n invr1.
Qed.

Lemma normal_X1_neg : normal_mx X1 sigma_neg = 1%:M.
Proof. by rewrite /normal_mx weight_sigma_neg /X1 trmx1 !mulmx1. Qed.

Lemma wls_cov_X1_neg : wls_cov X1 sigma_neg = X1.
Proof. by rewrite /wls_cov normal_X1_neg invmx1. Qed.

Lemma wls_beta_X1_neg : wls_beta X1 y1 sigma_neg = y1.
Proof.
rewrite /wls_beta normal_X1_neg weight_sigma_neg invmx1 /X1 /y1.
by do ?[rewrite trmx1 | rewrite mulmx1].
Qed.

Lemma normal_X2_unit : normal_mx X2 err2 \in unitmx.
Proof.
exact: wellposed_unit rank_X2 (positive_nonzero err2_positive).
Qed.

Lemma normal_X1_unit : normal_mx X1 sigma_one \in unitmx.
Proof.
exact: wellposed_unit rank_X1 (positive_nonzero sigma_one_positive).
Qed.

(* ===================================================================== *)
(* The claims on the sample inputs                                       *)
(* ===================================================================== *)

Lemma linreg_normal_equations_witness :
  positive err2 /\ normal_mx X2 err2 \in unitmx /\
  outcome (linreg (Arr2 X2) (Arr1 y2) (Arr1 err2)) =
    Ok (Arr1 (wls_beta X2 y2 err2), Arr2 (wls_cov X2 err2)).
Proof.
split; first exact: err2_positive.
split; first exact: normal_X2_unit.
exact: (proj1 (linreg_normal_equations y2 err2_positive normal_X2_unit)).
Defined.

Lemma linreg_recovers_exact_witness :
  \rank X2 = 1%N /\ positive err2 /\
  exists cov,
    outcome (linreg (Arr2 X2) (Arr1 (X2 *m (3%:M : 'rV[rat]_1)^T)^T)
               (Arr1 err2)) = Ok (Arr1 (3%:M : 'rV[rat]_1), cov).
Proof.
split; first exact: rank_X2.
split; first exact: err2_positive.
exact: (linreg_recovers_exact 3%:M rank_X2 err2_positive).
Defined.

Lemma linreg_singular_design_witness :
  (\rank X_dup < 2)%N /\
  outcome (linreg (Arr2 X_dup) (Arr1 y2) (Arr1 err2)) = Raise LinAlgError.
Proof.
split; first exact: rank_X_dup.
exact: (proj2 (linreg_singular_design err2 (Arr1 y2) rank_X_dup)).
Defined.

(* X = [[1]], y = [1], err = [-1]: the uncertainty is negative, and linreg
   returns betas = [1], cov = [[1]] *)
Lemma negative_uncertainty_accepted :
  (exists i, sigma_neg 0 i <= 0) /\
  outcome (linreg (Arr2 X1) (Arr1 y1) (Arr1 sigma_neg)) =
    Ok (Arr1 y1, Arr2 X1).
Proof.
split; first exact: sigma_neg_entry.
have uA : normal_mx X1 sigma_neg \in unitmx by rewrite normal_X1_neg unitmx1.
rewrite (linreg_ok y1 sigma_neg_nonzero uA).
by rewrite wls_beta_X1_neg wls_cov_X1_neg.
Qed.

Lemma linreg_zero_uncertainty_witness :
  (exists i, sigma_zero 0 i = 0) /\
  linreg (Arr2 X1) (Arr1 y1) (Arr1 sigma_zero) =
    ([:: call_weight sigma_zero], Raise LinAlgError).
Proof.
split; first exact: sigma_zero_entry.
exact: (linreg_zero_uncertainty (Arr2 X1) (Arr1 y1) sigma_zero_entry).
Defined.

Lemma linreg_uncertainty_scale_witness :
  \rank X2 = 1%N /\ positive err2 /\ (0 : rat) < 2 /\
  exists (beta : 'rV[rat]_1) (cov : 'M[rat]_1),
    outcome (linreg (Arr2 X2) (Arr1 y2) (Arr1 err2)) =
      Ok (Arr1 beta, Arr2 cov) /\
    outcome (linreg (Arr2 X2) (Arr1 y2) (Arr1 (2 *: err2))) =
      Ok (Arr1 beta, Arr2 (2 ^+ 2 *: cov)).
Proof.
split; first exact: rank_X2.
split; first exact: err2_positive.
split; first by [].
exact: (linreg_uncertainty_scale y2 rank_X2 err2_positive (c := 2) isT).
Defined.

Lemma linreg_cov_diag_ge0_witness :
  \rank X2 = 1%N /\ positive err2 /\
  exists (beta : 'rV[rat]_1) (cov : 'M[rat]_1),
    outcome (linreg (Arr2 X2) (Arr1 y2) (Arr1 err2)) =
      Ok (Arr1 beta, Arr2 cov) /\
    forall i, 0 <= cov i i.
Proof.
split; first exact: rank_X2.
split; first exact: err2_positive.
exact: (linreg_cov_diag_ge0 y2 rank_X2 err2_positive).
Defined.

(* X = [[1, 1], [1, 1]], y = [1], err = [1, 1]: y is one entry short.  The
   weight matrix is inverted, X^T W X is formed and its inversion raises
   LinAlgError: the run stops before the product with y, the only call
   that compares the length of y. *)
Lemma mismatch_after_numeric_work :
  (shape2 (Arr2 X_dup)).1 != (shape2 (Arr1 y1)).2 /\
  linreg (Arr2 X_dup) (Arr1 y1) (Arr1 err2) =
    (call_weight err2 :: calls_normal X_dup err2, Raise LinAlgError).
Proof.
have nz := positive_nonzero err2_positive.
split=> //; apply: (linreg_singular _ nz).
by rewrite (normal_mx_unit _ nz) neq_ltn rank_X_dup.
Qed.

Lemma linreg_dimension_mismatch_witness :
  (2 != 2)%N || (2 != 1)%N /\
  exists e t,
    linreg (Arr2 X_dup) (Arr1 y1) (Arr1 err2) =
    (call_weight err2 :: t, Raise e).
Proof.
split; first by [].
exact: (proj1 (linreg_dimension_mismatch rat) _ _ _ _ X_dup y1 err2 isT).
Defined.

(* X = [[1]], y = [1], err = [1]: calls 2 and 8 of the run both form
   X^T W X *)
Lemma inner_matrix_formed_twice :
  ~ formed_once (Arr2 (X1^T *m weight sigma_one)) (Arr2 X1)
      (trace (linreg (Arr2 X1) (Arr1 y1) (Arr1 sigma_one))).
Proof.
rewrite (linreg_ok y1 (positive_nonzero sigma_one_positive) normal_X1_unit).
exact: (@formed_twice _ _ _ _ 2 8).
Qed.

Lemma linreg_inner_matrix_witness :
  positive err2 /\ normal_mx X2 err2 \in unitmx /\
  trace (linreg (Arr2 X2) (Arr1 y2) (Arr1 err2)) =
    calls_linreg X2 err2 (Arr1 y2).
Proof.
split; first exact: err2_positive.
split; first exact: normal_X2_unit.
exact: (proj1 (linreg_inner_matrix y2 err2_positive normal_X2_unit)).
Defined.

Lemma linreg_sign_invariant_witness :
  nonzero sigma_neg /\
  linreg (Arr2 X1) (Arr1 y1) (Arr1 sigma_neg) =
    linreg (Arr2 X1) (Arr1 y1) (Arr1 (map_mx Num.norm sigma_neg)).
Proof.
split; first exact: sigma_neg_nonzero.
exact: (proj1 (linreg_sign_invariant X1 y1 sigma_neg_nonzero)).
Defined.

(* basis vectors of lengths 1 and 2 are not stacked *)
Example X_obs_unequal_lengths :
  outcome (X_obs [:: Arr1 y1; Arr1 y2]) = Raise ValueError.
Proof. exact: X_obs_mismatch. Qed.

(* ===================================================================== *)
(* Further properties of the notebook                                    *)
(* ===================================================================== *)

Section Further.

Variable F : realFieldType.

Implicit Types (n k : nat).

(* --------------------------------------------------------------------- *)
(* More algebra of the estimator                                         *)
(* --------------------------------------------------------------------- *)

Lemma weight_sym n (sigma : 'rV[F]_n) : (weight sigma)^T = weight sigma.
Proof. exact: tr_diag_mx. Qed.

Lemma normal_mx_sym n k (X : 'M[F]_(n, k)) (sigma : 'rV[F]_n) :
  (normal_mx X sigma)^T = normal_mx X sigma.
Proof. by rewrite /normal_mx !trmx_mul trmxK weight_sym mulmxA. Qed.

Lemma wls_cov_sym n k (X : 'M[F]_(n, k)) (sigma : 'rV[F]_n) :
  (wls_cov X sigma)^T = wls_cov X sigma.
Proof. by rewrite /wls_cov trmx_inv normal_mx_sym. Qed.

(* the quadratic form vanishes only on the combinations X sends to 0 *)
Lemma quad_form_eq0 n k (X : 'M[F]_(n, k)) (sigma : 'rV[F]_n) (v : 'rV[F]_k) :
  nonzero sigma -> (v *m normal_mx X sigma *m v^T) 0 0 = 0 -> v *m X^T = 0.
Proof.
move=> nz q0; apply/rowP => j; rewrite [RHS]mxE.
have ge0 (i : 'I_n) :
    true -> 0 <= (sigma 0 i ^+ 2)^-1 * (v *m X^T) 0 i ^+ 2.
  by rewrite mulr_ge0 ?invr_ge0 ?sqr_ge0.
move: q0; rewrite quad_form => /(psumr_eq0P ge0) /(_ j isT) /eqP.
by rewrite mulf_eq0 invr_eq0 !sqrf_eq0 (negbTE (nz j)) /= => /eqP.
Qed.

Lemma quad_form_gt0 n k (X : 'M[F]_(n, k)) (sigma : 'rV[F]_n) (v : 'rV[F]_k) :
  nonzero sigma -> \rank X = k -> v != 0 ->
  0 < (v *m normal_mx X sigma *m v^T) 0 0.
Proof.
move=> nz rX v0; rewrite lt_def quad_form_ge0 andbT.
apply: contra v0 => /eqP /(quad_form_eq0 nz) vX.
have fX : row_free X^T by rewrite /row_free mxrank_tr rX.
by rewrite -(mulmx_free_eq0 _ fX) vX.
Qed.

Lemma wls_beta_linear n k (X : 'M[F]_(n, k)) (y1 y2 sigma : 'rV[F]_n) (a : F) :
  wls_beta X (a *: y1 + y2) sigma =
  a *: wls_beta X y1 sigma + wls_beta X y2 sigma.
Proof.
by rewrite /wls_beta linearP /= mulmxDr -scalemxAr linearP.
Qed.

Lemma row_unit_neq0 k (A : 'M[F]_k) (i : 'I_k) :
  A \in unitmx -> row i A != 0.
Proof.
move=> uA; apply/eqP => r0.
have: row i (A *m invmx A) = 0 by rewrite row_mul r0 mul0mx.
rewrite mulmxV // => /rowP /(_ i); rewrite !mxE eqxx /=.
by move/eqP; rewrite oner_eq0.
Qed.

Lemma wls_cov_diag_gt0 n k (X : 'M[F]_(n, k)) (sigma : 'rV[F]_n) (i : 'I_k) :
  nonzero sigma -> \rank X = k -> 0 < wls_cov X sigma i i.
Proof.
move=> nz rX; have uA := wellposed_unit rX nz.
rewrite wls_cov_diag // quad_form_gt0 // row_unit_neq0 //.
by rewrite /wls_cov unitmx_inv.
Qed.

(* the coefficients as a row: y W X (X^T W X)^-1 *)
Lemma wls_beta_row n k (X : 'M[F]_(n, k)) (y sigma : 'rV[F]_n) :
  wls_beta X y sigma = y *m weight sigma *m X *m wls_cov X sigma.
Proof.
rewrite /wls_beta !trmx_mul !trmxK weight_sym trmx_inv normal_mx_sym.
by rewrite !mulmxA.
Qed.

(* the normal equations: the residuals are orthogonal to the columns *)
Lemma normal_eq n k (X : 'M[F]_(n, k)) (y sigma : 'rV[F]_n) :
  normal_mx X sigma \in unitmx ->
  (y - wls_beta X y sigma *m X^T) *m weight sigma *m X = 0.
Proof.
move=> uA; rewrite !mulmxBl -!mulmxA [X^T *m _]mulmxA -/(normal_mx X sigma).
by rewrite wls_beta_row /wls_cov mulmxKV // mulmxA subrr.
Qed.

Lemma wrssE n k (X : 'M[F]_(n, k)) (y sigma : 'rV[F]_n) (b : 'rV[F]_k) :
  wrss X y sigma b =
  ((y - b *m X^T) *m weight sigma *m (y - b *m X^T)^T) 0 0.
Proof.
rewrite /wrss mxE; apply: eq_bigr => i _.
have -> : (X *m b^T) i 0 = (b *m X^T) 0 i.
  have -> : (b *m X^T) 0 i = (b *m X^T)^T i 0 by rewrite [RHS]mxE.
  by rewrite trmx_mul trmxK.
have -> : y 0 i - (b *m X^T) 0 i = (y - b *m X^T) 0 i by rewrite !mxE.
set u := y - b *m X^T; rewrite mul_mx_diag !mxE.
by rewrite exprMn exprVn mulrAC -expr2 mulrC.
Qed.

Lemma quad_expand n k (X : 'M[F]_(n, k)) (sigma r : 'rV[F]_n) (d : 'rV[F]_k) :
  r *m weight sigma *m X = 0 ->
  (r - d *m X^T) *m weight sigma *m (r - d *m X^T)^T =
  r *m weight sigma *m r^T + d *m normal_mx X sigma *m d^T.
Proof.
move=> ne.
have net : X^T *m weight sigma *m r^T = 0.
  have -> : X^T *m weight sigma *m r^T = (r *m weight sigma *m X)^T.
    by rewrite !trmx_mul weight_sym mulmxA.
  by rewrite ne trmx0.
rewrite linearB /= trmx_mul trmxK !mulmxBr !mulmxBl.
have -> : r *m weight sigma *m (X *m d^T) = 0 by rewrite mulmxA ne mul0mx.
have -> : d *m X^T *m weight sigma *m r^T = 0.
  by rewrite -!mulmxA [X^T *m _]mulmxA net mulmx0.
by rewrite subr0 sub0r opprK /normal_mx !mulmxA.
Qed.

(* the sum of squares at b exceeds the one at the fit by the quadratic
   form of the difference *)
Lemma wrss_decomp n k (X : 'M[F]_(n, k)) (y sigma : 'rV[F]_n) (b : 'rV[F]_k) :
  normal_mx X sigma \in unitmx ->
  wrss X y sigma b =
  wrss X y sigma (wls_beta X y sigma) +
  ((b - wls_beta X y sigma) *m normal_mx X sigma *m
   (b - wls_beta X y sigma)^T) 0 0.
Proof.
move=> uA; rewrite !wrssE.
have -> : y - b *m X^T =
          (y - wls_beta X y sigma *m X^T) - (b - wls_beta X y sigma) *m X^T.
  by rewrite mulmxBl opprB addrA subrK.
by rewrite quad_expand ?mxE //; apply: normal_eq.
Qed.

(* --------------------------------------------------------------------- *)
(* Properties of the fit                                                 *)
(* --------------------------------------------------------------------- *)

(** X1: on a well-posed input (independent columns, no zero uncertainty)
    the covariance returned by linreg is a symmetric matrix. *)
Theorem linreg_cov_symmetric n k (X : 'M[F]_(n, k)) (y sigma : 'rV[F]_n) :
  nonzero sigma -> \rank X = k ->
  exists (beta : 'rV[F]_k) (cov : 'M[F]_k),
    outcome (linreg (Arr2 X) (Arr1 y) (Arr1 sigma)) =
      Ok (Arr1 beta, Arr2 cov) /\
    cov^T = cov.
Proof.
move=> nz rX; have uA := wellposed_unit rX nz.
exists (wls_beta X y sigma), (wls_cov X sigma).
by rewrite linreg_ok // wls_cov_sym.
Qed.

(** X2: on a well-posed input every diagonal entry of the covariance
    returned by linreg is strictly positive. *)
Theorem linreg_cov_diag_gt0 n k (X : 'M[F]_(n, k)) (y sigma : 'rV[F]_n) :
  nonzero sigma -> \rank X = k ->
  exists (beta : 'rV[F]_k) (cov : 'M[F]_k),
    outcome (linreg (Arr2 X) (Arr1 y) (Arr1 sigma)) =
      Ok (Arr1 beta, Arr2 cov) /\
    forall i, 0 < cov i i.
Proof.
move=> nz rX; have uA := wellposed_unit rX nz.
exists (wls_beta X y sigma), (wls_cov X sigma).
by rewrite linreg_ok //; split=> // i; apply: wls_cov_diag_gt0.
Qed.

(** X3: the coefficients returned by linreg are linear in flux, and the
    covariance does not depend on flux: it is the same for every
    observation vector. *)
Theorem linreg_superposition n k (X : 'M[F]_(n, k)) (y1 y2 sigma : 'rV[F]_n)
    (a : F) :
  nonzero sigma -> \rank X = k ->
  exists (b1 b2 : 'rV[F]_k) (cov : 'M[F]_k),
    [/\ outcome (linreg (Arr2 X) (Arr1 y1) (Arr1 sigma)) =
          Ok (Arr1 b1, Arr2 cov),
        outcome (linreg (Arr2 X) (Arr1 y2) (Arr1 sigma)) =
          Ok (Arr1 b2, Arr2 cov) &
        outcome (linreg (Arr2 X) (Arr1 (a *: y1 + y2)) (Arr1 sigma)) =
          Ok (Arr1 (a *: b1 + b2), Arr2 cov)].
Proof.
move=> nz rX; have uA := wellposed_unit rX nz.
exists (wls_beta X y1 sigma), (wls_beta X y2 sigma), (wls_cov X sigma).
by rewrite !linreg_ok // wls_beta_linear.
Qed.

Lemma residuals_ok n k (X : 'M[F]_(n, k)) (y : 'rV[F]_n) (b : 'rV[F]_k) :
  residuals (Arr1 y) (Arr2 X) (Arr1 b) =
  ([:: CallMatmul (Arr2 X) (Arr1 b)], Ok (Arr1 (y - b *m X^T))).
Proof.
rewrite /residuals /best_flux_model matmul21 /bind sub11 /=.
by rewrite trmx_mul trmxK.
Qed.

Lemma orthogonalE n k (X : 'M[F]_(n, k)) (sigma r : 'rV[F]_n) (j : 'I_k) :
  (r *m weight sigma *m X) 0 j = \sum_i r 0 i * X i j / sigma 0 i ^+ 2.
Proof.
rewrite mxE; apply: eq_bigr => i _.
by rewrite mul_mx_diag !mxE mulrAC.
Qed.

(** X4: on a well-posed input the coefficients returned by linreg minimise
    the weighted sum of squared residuals
    sum_i ((y_i - (X b)_i) / sigma_i)^2 over all b, and are the only
    minimiser. *)
Theorem linreg_least_squares n k (X : 'M[F]_(n, k)) (y sigma : 'rV[F]_n) :
  nonzero sigma -> \rank X = k ->
  exists (beta : 'rV[F]_k) (cov : 'M[F]_k),
    outcome (linreg (Arr2 X) (Arr1 y) (Arr1 sigma)) =
      Ok (Arr1 beta, Arr2 cov) /\
    forall b : 'rV[F]_k,
      wrss X y sigma beta <= wrss X y sigma b /\
      (wrss X y sigma b = wrss X y sigma beta -> b = beta).
Proof.
move=> nz rX; have uA := wellposed_unit rX nz.
exists (wls_beta X y sigma), (wls_cov X sigma); rewrite linreg_ok //.
split=> // b; rewrite (wrss_decomp y b uA); split.
  by rewrite lerDl quad_form_ge0.
move/eqP; rewrite -subr_eq0 addrC addKr => /eqP q0.
apply/eqP; rewrite -subr_eq0; apply: contraT => d0.
by have := quad_form_gt0 nz rX d0; rewrite q0 ltxx.
Qed.

(** X5: the residuals flux_observed - X_obs @ betas of a fit on a
    well-posed input satisfy the normal equations: for every column j of
    X, sum_i r_i X_ij / sigma_i^2 = 0. *)
Theorem residuals_orthogonal n k (X : 'M[F]_(n, k)) (y sigma : 'rV[F]_n) :
  nonzero sigma -> \rank X = k ->
  exists (beta : 'rV[F]_k) (cov : 'M[F]_k) (r : 'rV[F]_n),
    [/\ outcome (linreg (Arr2 X) (Arr1 y) (Arr1 sigma)) =
          Ok (Arr1 beta, Arr2 cov),
        outcome (residuals (Arr1 y) (Arr2 X) (Arr1 beta)) = Ok (Arr1 r) &
        forall j, \sum_i r 0 i * X i j / sigma 0 i ^+ 2 = 0].
Proof.
move=> nz rX; have uA := wellposed_unit rX nz.
exists (wls_beta X y sigma), (wls_cov X sigma),
  (y - wls_beta X y sigma *m X^T).
rewrite linreg_ok // residuals_ok; split=> // j.
by rewrite -orthogonalE normal_eq // mxE.
Qed.

(** X6: when one basis vector is constant (a column np.ones(n)) and the
    uncertainties are uniform and not zero, the residuals of the fit sum
    to zero. *)
Theorem residuals_sum_zero n k (X : 'M[F]_(n, k)) (y : 'rV[F]_n) (s : F)
    (j0 : 'I_k) :
  s != 0 -> \rank X = k -> (forall i, X i j0 = 1) ->
  exists (beta : 'rV[F]_k) (cov : 'M[F]_k) (r : 'rV[F]_n),
    [/\ outcome (linreg (Arr2 X) (Arr1 y) (Arr1 (const_mx s : 'rV[F]_n))) =
          Ok (Arr1 beta, Arr2 cov),
        outcome (residuals (Arr1 y) (Arr2 X) (Arr1 beta)) = Ok (Arr1 r) &
        \sum_i r 0 i = 0].
Proof.
move=> s0 rX ones.
have nz : nonzero (const_mx s : 'rV[F]_n) by move=> i; rewrite mxE.
have uA := wellposed_unit rX nz.
exists (wls_beta X y (const_mx s)), (wls_cov X (const_mx s)),
  (y - wls_beta X y (const_mx s) *m X^T).
rewrite linreg_ok // residuals_ok; split=> //.
move: (normal_eq y uA) => /rowP /(_ j0); rewrite orthogonalE [RHS]mxE.
rewrite (eq_bigr (fun i => (y - wls_beta X y (const_mx s) *m X^T) 0 i /
                           s ^+ 2)).
  by move=> i _; rewrite ones mulr1 [const_mx s 0 i]mxE.
rewrite -mulr_suml => /eqP; rewrite mulf_eq0 invr_eq0 sqrf_eq0 (negbTE s0).
by rewrite orbF => /eqP.
Qed.

(** X7: fitting the residuals of a fit again returns zero coefficients
    (and the same covariance): the basis explains nothing of what the
    fit leaves. *)
Theorem linreg_refit_residuals n k (X : 'M[F]_(n, k)) (y sigma : 'rV[F]_n) :
  nonzero sigma -> \rank X = k ->
  exists (beta : 'rV[F]_k) (cov : 'M[F]_k) (r : 'rV[F]_n),
    [/\ outcome (linreg (Arr2 X) (Arr1 y) (Arr1 sigma)) =
          Ok (Arr1 beta, Arr2 cov),
        outcome (residuals (Arr1 y) (Arr2 X) (Arr1 beta)) = Ok (Arr1 r) &
        outcome (linreg (Arr2 X) (Arr1 r) (Arr1 sigma)) =
          Ok (Arr1 (0 : 'rV[F]_k), Arr2 cov)].
Proof.
move=> nz rX; have uA := wellposed_unit rX nz.
exists (wls_beta X y sigma), (wls_cov X sigma),
  (y - wls_beta X y sigma *m X^T).
rewrite !linreg_ok // residuals_ok; split=> //.
by rewrite [wls_beta X (_ - _) _]wls_beta_row normal_eq // mul0mx.
Qed.

(* --------------------------------------------------------------------- *)
(* Arguments of another dimension                                        *)
(* --------------------------------------------------------------------- *)

Lemma matmul12 n p (v : 'rV[F]_n) (B : 'M[F]_(n, p)) :
  matmul (Arr1 v) (Arr2 B) =
  ([:: CallMatmul (Arr1 v) (Arr2 B)], Ok (Arr1 (v *m B))).
Proof.
by rewrite /matmul /=; case: eqP => [e|//]; rewrite (eq_axiomK e) castmx_id.
Qed.

Lemma matmul11 n (v w : 'rV[F]_n) :
  matmul (Arr1 v) (Arr1 w) =
  ([:: CallMatmul (Arr1 v) (Arr1 w)], Ok (Arr0 ((v *m w^T) 0 0))).
Proof.
by rewrite /matmul /=; case: eqP => [e|//]; rewrite (eq_axiomK e) castmx_id.
Qed.

(** X8: err must be a 1-d array.  A 0-d err makes np.diag raise ValueError
    before any linear algebra; of a 2-d err (a covariance matrix, say)
    np.diag takes the diagonal, a 1-d array, which np.linalg.inv refuses
    with LinAlgError.  Neither X nor flux is looked at. *)
Theorem linreg_err_dimension (X flux : ndarray F) :
  (forall x : F, linreg X flux (Arr0 x) = ([::], Raise ValueError)) /\
  (forall m n (E : 'M[F]_(m, n)),
     exists d : 'rV[F]_(minn m n),
       linreg X flux (Arr2 E) = ([:: CallInv (Arr1 d)], Raise LinAlgError)).
Proof.
split=> [x|m n E] //.
by eexists; rewrite /linreg /=.
Qed.

(** X9: X must be a 2-d array.  With uncertainties that are not zero, a
    single basis vector passed as a 1-d array of the length of err makes
    X.T @ inv_N @ X a 0-d number, which np.linalg.inv refuses with
    LinAlgError; a 0-d X makes the first product raise ValueError. *)
Theorem linreg_X_dimension n (err : 'rV[F]_n) (flux : ndarray F) :
  nonzero err ->
  (forall x : 'rV[F]_n,
     outcome (linreg (Arr1 x) flux (Arr1 err)) = Raise LinAlgError) /\
  (forall x : F,
     outcome (linreg (Arr0 x) flux (Arr1 err)) = Raise ValueError).
Proof.
move=> nz; split=> x; rewrite /linreg /= inv_N_ok //=.
by rewrite matmul12 /= matmul11.
Qed.

(** X10: a 2-d flux of shape (n, q) is fitted column by column: linreg
    returns a 2-d betas of shape (k, q) whose column j holds the
    coefficients of the fit of column j of flux, with the covariance of
    the 1-d case; a 0-d flux makes the last product raise ValueError. *)
Theorem linreg_flux_dimension n k q (X : 'M[F]_(n, k)) (Y : 'M[F]_(n, q))
    (sigma : 'rV[F]_n) :
  nonzero sigma -> \rank X = k ->
  (exists B : 'M[F]_(k, q),
     outcome (linreg (Arr2 X) (Arr2 Y) (Arr1 sigma)) =
       Ok (Arr2 B, Arr2 (wls_cov X sigma)) /\
     forall j, col j B = (wls_beta X (col j Y)^T sigma)^T) /\
  (forall x : F,
     outcome (linreg (Arr2 X) (Arr0 x) (Arr1 sigma)) = Raise ValueError).
Proof.
move=> nz rX; have uA := wellposed_unit rX nz; split; last first.
  move=> x; rewrite /linreg /= inv_N_ok //=.
  by do ?[rewrite matmul22 /= | rewrite (inv_unit uA) /=].
exists (invmx (normal_mx X sigma) *m X^T *m weight sigma *m Y); split.
  rewrite /linreg /= inv_N_ok //=.
  by do ?[rewrite matmul22 /= | rewrite (inv_unit uA) /=].
by move=> j; rewrite /wls_beta !trmxK !colE mulmxA.
Qed.

(* --------------------------------------------------------------------- *)
(* A single constant basis vector                                        *)
(* --------------------------------------------------------------------- *)

Lemma rank_ones n : (0 < n)%N -> \rank (const_mx 1 : 'M[F]_(n, 1)) = 1%N.
Proof.
case: n => // n _; apply/eqP; rewrite eqn_leq rank_leq_col lt0n mxrank_eq0.
by apply/eqP => /matrixP /(_ 0 0); rewrite !mxE; move/eqP; rewrite oner_eq0.
Qed.

Lemma normal_ones n (sigma : 'rV[F]_n) :
  normal_mx (const_mx 1 : 'M[F]_(n, 1)) sigma =
  const_mx (\sum_i 1 / sigma 0 i ^+ 2).
Proof.
apply/matrixP => i j; rewrite /normal_mx !mxE; apply: eq_bigr => l _.
by rewrite mul_mx_diag !mxE !mul1r mulr1.
Qed.

Lemma const_mx11 (a : F) : const_mx a = a%:M :> 'M[F]_1.
Proof. by apply/matrixP => i j; rewrite !mxE !ord1 mulr1n. Qed.

(** X11: with np.ones(n) as the only basis vector (n > 0, no zero
    uncertainty) linreg returns the inverse-variance weighted mean of flux,
    (sum_i y_i / sigma_i^2) / (sum_i 1 / sigma_i^2), and its variance
    1 / (sum_i 1 / sigma_i^2). *)
Theorem linreg_weighted_mean n (y sigma : 'rV[F]_n) :
  (0 < n)%N -> nonzero sigma ->
  outcome (linreg (Arr2 (const_mx 1 : 'M[F]_(n, 1))) (Arr1 y) (Arr1 sigma)) =
  Ok (Arr1 (const_mx ((\sum_i y 0 i / sigma 0 i ^+ 2) /
                      (\sum_i 1 / sigma 0 i ^+ 2)) : 'rV[F]_1),
      Arr2 (const_mx (\sum_i 1 / sigma 0 i ^+ 2)^-1 : 'M[F]_1)).
Proof.
move=> n0 nz; have uA := wellposed_unit (rank_ones n0) nz.
have cE : wls_cov (const_mx 1 : 'M[F]_(n, 1)) sigma =
          const_mx (\sum_i 1 / sigma 0 i ^+ 2)^-1.
  by rewrite /wls_cov normal_ones !const_mx11 invmx_scalar.
have bE : wls_beta (const_mx 1 : 'M[F]_(n, 1)) y sigma =
          const_mx ((\sum_i y 0 i / sigma 0 i ^+ 2) /
                    (\sum_i 1 / sigma 0 i ^+ 2)).
  rewrite wls_beta_row cE const_mx11 mul_mx_scalar.
  apply/rowP => j; rewrite !mxE !ord1 mulrC; congr (_ * _).
  by apply: eq_bigr => i _; rewrite mul_mx_diag !mxE mulr1.
by rewrite linreg_ok // cE bE.
Qed.

(* --------------------------------------------------------------------- *)
(* Building the design matrix                                            *)
(* --------------------------------------------------------------------- *)

Lemma atleast_2d_Arr2 (a : ndarray F) c :
  (shape2 a).2 = c -> exists m (A : 'M[F]_(m, c)), atleast_2d a = Arr2 A.
Proof.
case: a => [x|n v|m n A] /= <-.
- by exists 1%N, x%:M.
- by exists 1%N, v.
- by exists m, A.
Qed.

Lemma vstack_ok (basis : seq (ndarray F)) c :
  (0 < size basis)%N -> all (fun b => (shape2 b).2 == c) basis ->
  exists m (A : 'M[F]_(m, c)), outcome (vstack basis) = Ok (Arr2 A).
Proof.
elim: basis => [|a [|b rest] IH] // _ /andP[/eqP /atleast_2d_Arr2 [m [A eA]] h].
  by exists m, A; rewrite /= eA.
have [//|p [B eB]] := IH _ h.
rewrite [vstack _]/(bind (vstack (b :: rest)) _) outcome_bind eB eA /=.
by case: eqP => // e; rewrite (eq_axiomK e) castmx_id; eexists; eexists.
Qed.

Lemma constant_all (s : seq nat) :
  constant s -> all (pred1 (head 0%N s)) s.
Proof. by case: s => //= x s ->; rewrite eqxx. Qed.

(** X12: the design matrix is built exactly when there is at least one
    basis vector and all basis vectors have the same length (for 2-d
    entries: the same number of columns); otherwise np.vstack raises
    ValueError, and this is the only exception of the builder. *)
Theorem X_obs_returns_iff (basis : seq (ndarray F)) :
  ((exists X, outcome (X_obs basis) = Ok X) <->
   (0 < size basis)%N /\ constant [seq (shape2 b).2 | b <- basis]) /\
  (forall e, outcome (X_obs basis) = Raise e -> e = ValueError).
Proof.
split; last first.
  move=> e; rewrite /X_obs outcome_bind.
  by case E: (outcome (vstack basis)) => [a|e'] // [<-]; apply: vstack_raise E.
split=> [[X]|[ne /constant_all cs]].
  rewrite /X_obs outcome_bind.
  case E: (outcome (vstack basis)) => [a|//] _; split.
    by case: basis E.
  have := vstack_cols E.
  rewrite -(all_map (fun b => (shape2 b).2) (pred1 _)).
  exact: all_pred1_constant.
have [|m [A eA]] := @vstack_ok basis (head 0%N [seq (shape2 b).2 | b <- basis]) ne.
  by rewrite -(all_map (fun b => (shape2 b).2) (pred1 _)).
by exists (Arr2 A^T); rewrite /X_obs outcome_bind eA.
Qed.

Lemma bind_nil_ok A B (a : A) (f : A -> np F B) :
  bind ([::], Ok a) f = f a.
Proof. exact: bind_retl. Qed.

Lemma stack_cons n (r : 'rV[F]_n) (rows : seq 'rV[F]_n) :
  stack (r :: rows) = col_mx r (stack rows).
Proof.
apply/matrixP => i j; rewrite mxE.
case: (@split_ordP 1 (size rows) i) => [i0 ->|i1 ->].
  by rewrite (col_mxEu r (stack rows)) ord1.
by rewrite (col_mxEd r (stack rows)) mxE.
Qed.

Lemma vstack_rows n (rows : seq 'rV[F]_n) :
  (0 < size rows)%N ->
  vstack [seq Arr1 r | r <- rows] = ([::], Ok (Arr2 (stack rows))).
Proof.
elim: rows => [|r [|r' rest] IH] // _.
  rewrite /= /ret; congr (_, Ok (Arr2 _)); apply/matrixP => i j.
  by rewrite mxE !ord1.
rewrite map_cons.
rewrite [vstack _]/(bind (vstack [seq Arr1 x | x <- r' :: rest]) _).
rewrite IH // /concat0 /=; case: eqP => // e.
by rewrite (eq_axiomK e) castmx_id -(stack_cons r (r' :: rest)).
Qed.

(** X13: from k >= 1 basis vectors given as 1-d arrays of length n the
    builder returns the n x k design matrix whose column j is basis
    vector j: the order of the basis vectors is the order of the columns,
    hence of the coefficients. *)
Theorem X_obs_columns n (rows : seq 'rV[F]_n) :
  (0 < size rows)%N ->
  exists X : 'M[F]_(n, size rows),
    X_obs [seq Arr1 r | r <- rows] = ([::], Ok (Arr2 X)) /\
    forall j : 'I_(size rows), col j X = (nth 0 rows j)^T.
Proof.
move=> ne; exists (stack rows)^T; rewrite /X_obs vstack_rows //; split=> // j.
by apply/colP => i; rewrite !mxE.
Qed.

(** X14: when one basis vector is a multiple of another one (for
    instance the same vector twice), the builder still returns a design
    matrix; its rank is below its number of columns, and the fit hands it
    to linreg as it is: nothing checks the rank before the solve. *)
Theorem X_obs_proportional_basis n (rows : seq 'rV[F]_n)
    (i j : 'I_(size rows)) (a : F) (flux err : ndarray F) :
  i != j -> nth 0 rows i = a *: nth 0 rows j ->
  exists X : 'M[F]_(n, size rows),
    [/\ X_obs [seq Arr1 r | r <- rows] = ([::], Ok (Arr2 X)),
        (\rank X < size rows)%N &
        fit [seq Arr1 r | r <- rows] flux err = linreg (Arr2 X) flux err].
Proof.
move=> ne eij; have s0 : (0 < size rows)%N by apply: leq_ltn_trans (ltn_ord i).
exists (stack rows)^T; rewrite /fit /X_obs vstack_rows // !bind_nil_ok.
split=> //; apply: (@proportional_cols_rank _ _ _ _ i j a) => //.
by apply/colP => l; rewrite !mxE eij !mxE.
Qed.

(* --------------------------------------------------------------------- *)
(* Model, residuals and recovered signal                                 *)
(* --------------------------------------------------------------------- *)

Lemma recovered_signal_ok n k (X : 'M[F]_(n, k.+1)) (b : 'rV[F]_k.+1)
    (y : 'rV[F]_n) :
  outcome (recovered_signal (Arr1 y) (Arr2 X) (Arr1 b)) =
  Ok (Arr1 (y - col' ord_max b *m (col' ord_max X)^T)).
Proof.
rewrite /recovered_signal drop_last_colE drop_lastE !bind_retl outcome_bind.
rewrite matmul21 [outcome (_, _)]/=; cbv beta iota; rewrite sub11 /=.
by rewrite trmx_mul trmxK.
Qed.

(* the last column taken apart *)
Lemma split_last_col n k (X : 'M[F]_(n, k.+1)) (b : 'rV[F]_k.+1) :
  b *m X^T =
  col' ord_max b *m (col' ord_max X)^T + b 0 ord_max *: (col ord_max X)^T.
Proof.
apply/rowP => i; rewrite !mxE big_ord_recr /=; congr (_ + _); last first.
  by rewrite !mxE.
apply: eq_bigr => l _; rewrite !mxE.
by congr (b _ _ * X _ _); apply: val_inj; rewrite /= /bump leqNgt ltn_ord.
Qed.

(** X15: the recovered signal is the residual of the fit plus the fitted
    signal term: flux - X[:, :-1] @ betas[:-1] equals
    (flux - X @ betas) + betas[-1] * X[:, -1], for any coefficients. *)
Theorem recovered_signal_decomposition n k (X : 'M[F]_(n, k.+1))
    (betas : 'rV[F]_k.+1) (y : 'rV[F]_n) :
  exists s r : 'rV[F]_n,
    [/\ outcome (recovered_signal (Arr1 y) (Arr2 X) (Arr1 betas)) =
          Ok (Arr1 s),
        outcome (residuals (Arr1 y) (Arr2 X) (Arr1 betas)) = Ok (Arr1 r) &
        s = r + betas 0 ord_max *: (col ord_max X)^T].
Proof.
exists (y - col' ord_max betas *m (col' ord_max X)^T), (y - betas *m X^T).
rewrite recovered_signal_ok residuals_ok; split=> //.
by rewrite [betas *m _]split_last_col opprD addrA subrK.
Qed.

(** X16: a round trip.  For observations generated as
    flux_observed = X @ betas_soln and fitted with the same X (independent
    columns, no zero uncertainty), linreg returns betas_soln, the model
    X @ betas reproduces flux_observed and the residuals are all zero. *)
Theorem exact_fit_round_trip n k (X : 'M[F]_(n, k)) (betas_soln : 'rV[F]_k)
    (sigma : 'rV[F]_n) :
  nonzero sigma -> \rank X = k ->
  exists (y : 'rV[F]_n) (cov : 'M[F]_k),
    [/\ outcome (flux_observed (Arr2 X) (Arr1 betas_soln)) = Ok (Arr1 y),
        outcome (linreg (Arr2 X) (Arr1 y) (Arr1 sigma)) =
          Ok (Arr1 betas_soln, Arr2 cov),
        outcome (best_flux_model (Arr2 X) (Arr1 betas_soln)) = Ok (Arr1 y) &
        outcome (residuals (Arr1 y) (Arr2 X) (Arr1 betas_soln)) =
          Ok (Arr1 (0 : 'rV[F]_n))].
Proof.
move=> nz rX; have uA := wellposed_unit rX nz.
exists (betas_soln *m X^T), (wls_cov X sigma).
rewrite /flux_observed /best_flux_model matmul21 linreg_ok // residuals_ok.
by rewrite wls_beta_exact // subrr trmx_mul trmxK.
Qed.

(* a 1-d array of length 1 is broadcast against any 1-d array *)
Lemma sub_broadcast n (v : 'rV[F]_1) (w : 'rV[F]_n) :
  sub (Arr1 v) (Arr1 w) = ([::], Ok (Arr1 (\row_j (v 0 0 - w 0 j)))).
Proof.
rewrite /sub /bcompat eqxx orbT /= /ret; congr (_, Ok (Arr1 _)).
apply/rowP => j; rewrite !mxE /= (bidx_in (ltn_ord j)).
rewrite -[bidx 1 _]/(val (0 : 'I_1)) -[bidx 1 _]/(val (0 : 'I_1)).
by rewrite (get_in w 0 j) (get_in v 0 0).
Qed.

Lemma sub_mismatch p n (v : 'rV[F]_p) (w : 'rV[F]_n) :
  p != n -> p != 1%N -> n != 1%N ->
  sub (Arr1 v) (Arr1 w) = ([::], Raise ValueError).
Proof.
by move=> pn p1 n1; rewrite /sub /bcompat (negbTE pn) (negbTE p1) (negbTE n1).
Qed.

Lemma residuals_sub n k (X : 'M[F]_(n, k)) (b : 'rV[F]_k) (flux : ndarray F) :
  outcome (residuals flux (Arr2 X) (Arr1 b)) =
  outcome (sub flux (Arr1 (b *m X^T))).
Proof.
rewrite /residuals /best_flux_model outcome_bind matmul21.
by rewrite [outcome (_, Ok _)]/=; cbv beta iota; rewrite trmx_mul trmxK.
Qed.

Lemma recovered_signal_sub n k (X : 'M[F]_(n, k.+1)) (b : 'rV[F]_k.+1)
    (flux : ndarray F) :
  outcome (recovered_signal flux (Arr2 X) (Arr1 b)) =
  outcome (sub flux (Arr1 (col' ord_max b *m (col' ord_max X)^T))).
Proof.
rewrite /recovered_signal drop_last_colE drop_lastE !bind_retl outcome_bind.
rewrite matmul21 [outcome (_, Ok _)]/=; cbv beta iota.
by rewrite trmx_mul trmxK.
Qed.

(** X17: the residuals and the recovered signal do not check that flux
    has the length n of the model.  A flux of length 1 is broadcast: every
    entry of the result is flux[0] minus the model entry, and no exception
    is raised.  A flux of another length p (p, n and 1 all different)
    makes the subtraction raise ValueError. *)
Theorem reconstruction_broadcast n k (X : 'M[F]_(n, k.+1))
    (betas : 'rV[F]_k.+1) :
  (forall y : 'rV[F]_1,
     outcome (residuals (Arr1 y) (Arr2 X) (Arr1 betas)) =
       Ok (Arr1 (\row_j (y 0 0 - (betas *m X^T) 0 j))) /\
     outcome (recovered_signal (Arr1 y) (Arr2 X) (Arr1 betas)) =
       Ok (Arr1 (\row_j (y 0 0 -
             (col' ord_max betas *m (col' ord_max X)^T) 0 j)))) /\
  (forall p (y : 'rV[F]_p),
     p != n -> p != 1%N -> n != 1%N ->
     outcome (residuals (Arr1 y) (Arr2 X) (Arr1 betas)) = Raise ValueError /\
     outcome (recovered_signal (Arr1 y) (Arr2 X) (Arr1 betas)) =
       Raise ValueError).
Proof.
split=> [y|p y pn p1 n1]; rewrite residuals_sub recovered_signal_sub.
  by rewrite !sub_broadcast.
by rewrite !sub_mismatch.
Qed.

(** X18: the recovered signal needs a 2-d X and a betas that is not 0-d:
    X[:, :-1] raises IndexError on a 1-d or 0-d X, betas[:-1] raises
    IndexError on a 0-d betas.  When the signal template is the only
    column of X nothing is subtracted: the recovered signal is flux. *)
Theorem recovered_signal_edges (flux betas : ndarray F) :
  (forall n (x : 'rV[F]_n),
     recovered_signal flux (Arr1 x) betas = ([::], Raise IndexError)) /\
  (forall x : F,
     recovered_signal flux (Arr0 x) betas = ([::], Raise IndexError)) /\
  (forall m n (X : 'M[F]_(m, n)) (b : F),
     recovered_signal flux (Arr2 X) (Arr0 b) = ([::], Raise IndexError)) /\
  (forall n (X : 'M[F]_(n, 1)) (b : 'rV[F]_1) (y : 'rV[F]_n),
     outcome (recovered_signal (Arr1 y) (Arr2 X) (Arr1 b)) = Ok (Arr1 y)).
Proof.
do !split=> //; move=> n X b y; rewrite recovered_signal_ok.
congr (Ok (Arr1 _)); apply/rowP => j.
by rewrite !mxE big_ord0 subr0.
Qed.

(* --------------------------------------------------------------------- *)
(* Changing the basis, reordering the samples                            *)
(* --------------------------------------------------------------------- *)

Lemma invmx_uniq k (A B : 'M[F]_k) :
  A \in unitmx -> B *m A = 1%:M -> invmx A = B.
Proof. by move=> uA BA; rewrite -[LHS]mul1mx -BA mulmxK. Qed.

Section Reparametrize.

Variables (n k : nat) (X : 'M[F]_(n, k)) (P : 'M[F]_k) (sigma : 'rV[F]_n).
Hypothesis uP : P \in unitmx.
Hypothesis uA : normal_mx X sigma \in unitmx.

Lemma normal_mx_mulr :
  normal_mx (X *m P) sigma = P^T *m normal_mx X sigma *m P.
Proof. by rewrite /normal_mx trmx_mul !mulmxA. Qed.

Lemma normal_mx_mulr_unit : normal_mx (X *m P) sigma \in unitmx.
Proof. by rewrite normal_mx_mulr !unitmx_mul unitmx_tr uP uA. Qed.

Lemma wls_cov_mulr :
  wls_cov (X *m P) sigma = invmx P *m wls_cov X sigma *m (invmx P)^T.
Proof.
rewrite /wls_cov; apply: invmx_uniq; first exact: normal_mx_mulr_unit.
rewrite normal_mx_mulr trmx_inv.
have -> : invmx P *m invmx (normal_mx X sigma) *m invmx P^T *m
            (P^T *m normal_mx X sigma *m P) =
          invmx P *m (invmx (normal_mx X sigma) *m
            (invmx P^T *m P^T *m normal_mx X sigma)) *m P.
  by rewrite !mulmxA.
by rewrite mulVmx ?unitmx_tr // mul1mx mulVmx // mulmx1 mulVmx.
Qed.

Lemma wls_beta_mulr (y : 'rV[F]_n) :
  wls_beta (X *m P) y sigma = wls_beta X y sigma *m (invmx P)^T.
Proof.
rewrite !wls_beta_row wls_cov_mulr.
have -> : y *m weight sigma *m (X *m P) *m
            (invmx P *m wls_cov X sigma *m (invmx P)^T) =
          y *m weight sigma *m X *m (P *m invmx P) *m wls_cov X sigma *m
            (invmx P)^T.
  by rewrite !mulmxA.
by rewrite mulmxV // mulmx1.
Qed.

End Reparametrize.

(** X19: recombining the basis vectors by an invertible matrix P (for
    instance rescaling a column, or subtracting from a column a multiple
    of a constant column) changes the coefficients to betas P^-T and the
    covariance to P^-1 cov P^-T, and leaves the model X @ betas
    unchanged. *)
Theorem linreg_reparametrize n k (X : 'M[F]_(n, k)) (P : 'M[F]_k)
    (y sigma : 'rV[F]_n) :
  nonzero sigma -> \rank X = k -> P \in unitmx ->
  exists (beta : 'rV[F]_k) (cov : 'M[F]_k),
    [/\ outcome (linreg (Arr2 X) (Arr1 y) (Arr1 sigma)) =
          Ok (Arr1 beta, Arr2 cov),
        outcome (linreg (Arr2 (X *m P)) (Arr1 y) (Arr1 sigma)) =
          Ok (Arr1 (beta *m (invmx P)^T),
              Arr2 (invmx P *m cov *m (invmx P)^T)) &
        outcome (best_flux_model (Arr2 (X *m P))
                   (Arr1 (beta *m (invmx P)^T))) =
        outcome (best_flux_model (Arr2 X) (Arr1 beta))].
Proof.
move=> nz rX uP; have uA := wellposed_unit rX nz.
exists (wls_beta X y sigma), (wls_cov X sigma).
have uA' : normal_mx (X *m P) sigma \in unitmx by apply: normal_mx_mulr_unit.
rewrite !linreg_ok // wls_beta_mulr // wls_cov_mulr //; split=> //.
rewrite /best_flux_model !matmul21 /=; congr (Ok (Arr1 _^T)).
by rewrite trmx_mul trmxK -!mulmxA [P *m _]mulmxA mulmxV // mul1mx.
Qed.

Lemma momentE n k (X : 'M[F]_(n, k)) (sigma : 'rV[F]_n) (a b : 'I_k) :
  normal_mx X sigma a b = \sum_i X i a * X i b / sigma 0 i ^+ 2.
Proof.
rewrite /normal_mx mxE; apply: eq_bigr => i _.
by rewrite mul_mx_diag !mxE mulrAC.
Qed.

(** X20: the order of the samples does not matter: permuting the rows of
    X and the entries of flux and err by the same permutation gives the
    same coefficients and covariance. *)
Theorem linreg_sample_order n k (X : 'M[F]_(n, k)) (y sigma : 'rV[F]_n)
    (s : 'S_n) :
  nonzero sigma -> \rank X = k ->
  outcome (linreg (Arr2 (row_perm s X)) (Arr1 (col_perm s y))
             (Arr1 (col_perm s sigma))) =
  outcome (linreg (Arr2 X) (Arr1 y) (Arr1 sigma)).
Proof.
move=> nz rX; have uA := wellposed_unit rX nz.
have nzs : nonzero (col_perm s sigma) by move=> i; rewrite mxE.
have eA : normal_mx (row_perm s X) (col_perm s sigma) = normal_mx X sigma.
  apply/matrixP => a b; rewrite !momentE [RHS](reindex_inj (@perm_inj _ s)).
  by apply: eq_bigr => i _; rewrite !mxE.
have eM : col_perm s y *m weight (col_perm s sigma) *m row_perm s X =
          y *m weight sigma *m X.
  apply/rowP => b; rewrite !orthogonalE [RHS](reindex_inj (@perm_inj _ s)).
  by apply: eq_bigr => i _; rewrite !mxE.
rewrite !linreg_ok ?eA // !wls_beta_row /wls_cov eA.
by rewrite eM.
Qed.

End Further.

(* ===================================================================== *)
(* The further properties on the sample inputs                           *)
(* ===================================================================== *)

Lemma err2_nonzero : nonzero err2.
Proof. exact: positive_nonzero err2_positive. Qed.

Lemma two_unit : (2%:M : 'M[rat]_1) \in unitmx.
Proof. by rewrite unitmxE det_scalar1. Qed.

Lemma linreg_cov_symmetric_witness :
  nonzero err2 /\ \rank X2 = 1%N /\
  exists (beta : 'rV[rat]_1) (cov : 'M[rat]_1),
    outcome (linreg (Arr2 X2) (Arr1 y2) (Arr1 err2)) =
      Ok (Arr1 beta, Arr2 cov) /\
    cov^T = cov.
Proof.
split; first exact: err2_nonzero.
split; first exact: rank_X2.
exact: (linreg_cov_symmetric y2 err2_nonzero rank_X2).
Defined.

Lemma linreg_cov_diag_gt0_witness :
  nonzero err2 /\ \rank X2 = 1%N /\
  exists (beta : 'rV[rat]_1) (cov : 'M[rat]_1),
    outcome (linreg (Arr2 X2) (Arr1 y2) (Arr1 err2)) =
      Ok (Arr1 beta, Arr2 cov) /\
    forall i, 0 < cov i i.
Proof.
split; first exact: err2_nonzero.
split; first exact: rank_X2.
exact: (linreg_cov_diag_gt0 y2 err2_nonzero rank_X2).
Defined.

Lemma linreg_superposition_witness :
  nonzero err2 /\ \rank X2 = 1%N /\
  exists (b1 b2 : 'rV[rat]_1) (cov : 'M[rat]_1),
    [/\ outcome (linreg (Arr2 X2) (Arr1 y2) (Arr1 err2)) =
          Ok (Arr1 b1, Arr2 cov),
        outcome (linreg (Arr2 X2) (Arr1 y2) (Arr1 err2)) =
          Ok (Arr1 b2, Arr2 cov) &
        outcome (linreg (Arr2 X2) (Arr1 (2 *: y2 + y2)) (Arr1 err2)) =
          Ok (Arr1 (2 *: b1 + b2), Arr2 cov)].
Proof.
split; first exact: err2_nonzero.
split; first exact: rank_X2.
exact: (linreg_superposition y2 y2 2 err2_nonzero rank_X2).
Defined.

Lemma linreg_least_squares_witness :
  nonzero err2 /\ \rank X2 = 1%N /\
  exists (beta : 'rV[rat]_1) (cov : 'M[rat]_1),
    outcome (linreg (Arr2 X2) (Arr1 y2) (Arr1 err2)) =
      Ok (Arr1 beta, Arr2 cov) /\
    forall b : 'rV[rat]_1,
      wrss X2 y2 err2 beta <= wrss X2 y2 err2 b /\
      (wrss X2 y2 err2 b = wrss X2 y2 err2 beta -> b = beta).
Proof.
split; first exact: err2_nonzero.
split; first exact: rank_X2.
exact: (linreg_least_squares y2 err2_nonzero rank_X2).
Defined.

Lemma residuals_orthogonal_witness :
  nonzero err2 /\ \rank X2 = 1%N /\
  exists (beta : 'rV[rat]_1) (cov : 'M[rat]_1) (r : 'rV[rat]_2),
    [/\ outcome (linreg (Arr2 X2) (Arr1 y2) (Arr1 err2)) =
          Ok (Arr1 beta, Arr2 cov),
        outcome (residuals (Arr1 y2) (Arr2 X2) (Arr1 beta)) = Ok (Arr1 r) &
        forall j, \sum_i r 0 i * X2 i j / err2 0 i ^+ 2 = 0].
Proof.
split; first exact: err2_nonzero.
split; first exact: rank_X2.
exact: (residuals_orthogonal y2 err2_nonzero rank_X2).
Defined.

Lemma residuals_sum_zero_witness :
  (1 : rat) != 0 /\ \rank X2 = 1%N /\ (forall i, X2 i 0 = 1) /\
  exists (beta : 'rV[rat]_1) (cov : 'M[rat]_1) (r : 'rV[rat]_2),
    [/\ outcome (linreg (Arr2 X2) (Arr1 y2) (Arr1 (const_mx 1 : 'rV[rat]_2))) =
          Ok (Arr1 beta, Arr2 cov),
        outcome (residuals (Arr1 y2) (Arr2 X2) (Arr1 beta)) = Ok (Arr1 r) &
        \sum_i r 0 i = 0].
Proof.
have ones : forall i, X2 i 0 = 1 by move=> i; rewrite mxE.
split; first by [].
split; first exact: rank_X2.
split; first exact: ones.
exact: (@residuals_sum_zero _ _ _ X2 y2 1 0 isT rank_X2 ones).
Defined.

Lemma linreg_refit_residuals_witness :
  nonzero err2 /\ \rank X2 = 1%N /\
  exists (beta : 'rV[rat]_1) (cov : 'M[rat]_1) (r : 'rV[rat]_2),
    [/\ outcome (linreg (Arr2 X2) (Arr1 y2) (Arr1 err2)) =
          Ok (Arr1 beta, Arr2 cov),
        outcome (residuals (Arr1 y2) (Arr2 X2) (Arr1 beta)) = Ok (Arr1 r) &
        outcome (linreg (Arr2 X2) (Arr1 r) (Arr1 err2)) =
          Ok (Arr1 (0 : 'rV[rat]_1), Arr2 cov)].
Proof.
split; first exact: err2_nonzero.
split; first exact: rank_X2.
exact: (linreg_refit_residuals y2 err2_nonzero rank_X2).
Defined.

Lemma linreg_X_dimension_witness :
  nonzero err2 /\
  outcome (linreg (Arr1 y2) (Arr1 y2) (Arr1 err2)) = Raise LinAlgError.
Proof.
split; first exact: err2_nonzero.
exact: (proj1 (linreg_X_dimension (Arr1 y2) err2_nonzero) y2).
Defined.

Lemma linreg_flux_dimension_witness :
  nonzero err2 /\ \rank X2 = 1%N /\
  outcome (linreg (Arr2 X2) (Arr0 (1 : rat)) (Arr1 err2)) = Raise ValueError.
Proof.
split; first exact: err2_nonzero.
split; first exact: rank_X2.
exact: (proj2 (linreg_flux_dimension X2 err2_nonzero rank_X2) 1).
Defined.

Lemma linreg_weighted_mean_witness :
  (0 < 2)%N /\ nonzero err2 /\
  outcome (linreg (Arr2 (const_mx 1 : 'M[rat]_(2, 1))) (Arr1 y2) (Arr1 err2)) =
  Ok (Arr1 (const_mx ((\sum_i y2 0 i / err2 0 i ^+ 2) /
                      (\sum_i 1 / err2 0 i ^+ 2)) : 'rV[rat]_1),
      Arr2 (const_mx (\sum_i 1 / err2 0 i ^+ 2)^-1 : 'M[rat]_1)).
Proof.
split; first by [].
split; first exact: err2_nonzero.
exact: (linreg_weighted_mean y2 (n := 2) isT err2_nonzero).
Defined.

Lemma X_obs_columns_witness :
  (0 < size [:: y2; err2])%N /\
  exists X : 'M[rat]_(2, 2),
    X_obs [seq Arr1 r | r <- [:: y2; err2]] = ([::], Ok (Arr2 X)) /\
    forall j : 'I_2, col j X = (nth 0 [:: y2; err2] j)^T.
Proof.
split; first by [].
exact: (@X_obs_columns _ _ [:: y2; err2] isT).
Defined.

Lemma X_obs_proportional_basis_witness :
  (ord0 : 'I_2) != lift ord0 ord0 /\
  nth 0 [:: y2; err2] (ord0 : 'I_2) =
    1 *: nth 0 [:: y2; err2] (lift ord0 ord0 : 'I_2) /\
  exists X : 'M[rat]_(2, 2),
    [/\ X_obs [seq Arr1 r | r <- [:: y2; err2]] = ([::], Ok (Arr2 X)),
        (\rank X < 2)%N &
        fit [seq Arr1 r | r <- [:: y2; err2]] (Arr1 y2) (Arr1 err2) =
          linreg (Arr2 X) (Arr1 y2) (Arr1 err2)].
Proof.
have e : nth 0 [:: y2; err2] (ord0 : 'I_2) =
         1 *: nth 0 [:: y2; err2] (lift ord0 ord0 : 'I_2).
  by rewrite scale1r.
split; first by [].
split; first exact: e.
exact: (@X_obs_proportional_basis _ _ [:: y2; err2] (ord0 : 'I_2)
          (lift ord0 ord0 : 'I_2) 1 (Arr1 y2) (Arr1 err2) isT e).
Defined.

Lemma exact_fit_round_trip_witness :
  nonzero err2 /\ \rank X2 = 1%N /\
  exists (y : 'rV[rat]_2) (cov : 'M[rat]_1),
    [/\ outcome (flux_observed (Arr2 X2) (Arr1 (3%:M : 'rV[rat]_1))) =
          Ok (Arr1 y),
        outcome (linreg (Arr2 X2) (Arr1 y) (Arr1 err2)) =
          Ok (Arr1 (3%:M : 'rV[rat]_1), Arr2 cov),
        outcome (best_flux_model (Arr2 X2) (Arr1 (3%:M : 'rV[rat]_1))) =
          Ok (Arr1 y) &
        outcome (residuals (Arr1 y) (Arr2 X2) (Arr1 (3%:M : 'rV[rat]_1))) =
          Ok (Arr1 (0 : 'rV[rat]_2))].
Proof.
split; first exact: err2_nonzero.
split; first exact: rank_X2.
exact: (exact_fit_round_trip 3%:M err2_nonzero rank_X2).
Defined.

Lemma reconstruction_broadcast_witness :
  (3 != 2)%N /\ (3 != 1)%N /\ (2 != 1)%N /\
  outcome (residuals (Arr1 (const_mx 1 : 'rV[rat]_3)) (Arr2 X2) (Arr1 y1)) =
    Raise ValueError.
Proof.
do 3![split; first by []].
exact: (proj1 (proj2 (reconstruction_broadcast X2 y1) 3%N (const_mx 1)
                 isT isT isT)).
Defined.

Lemma linreg_reparametrize_witness :
  nonzero err2 /\ \rank X2 = 1%N /\ (2%:M : 'M[rat]_1) \in unitmx /\
  exists (beta : 'rV[rat]_1) (cov : 'M[rat]_1),
    [/\ outcome (linreg (Arr2 X2) (Arr1 y2) (Arr1 err2)) =
          Ok (Arr1 beta, Arr2 cov),
        outcome (linreg (Arr2 (X2 *m 2%:M)) (Arr1 y2) (Arr1 err2)) =
          Ok (Arr1 (beta *m (invmx 2%:M)^T),
              Arr2 (invmx 2%:M *m cov *m (invmx 2%:M)^T)) &
        outcome (best_flux_model (Arr2 (X2 *m 2%:M))
                   (Arr1 (beta *m (invmx 2%:M)^T))) =
        outcome (best_flux_model (Arr2 X2) (Arr1 beta))].
Proof.
split; first exact: err2_nonzero.
split; first exact: rank_X2.
split; first exact: two_unit.
exact: (linreg_reparametrize y2 err2_nonzero rank_X2 two_unit).
Defined.

Lemma linreg_sample_order_witness :
  nonzero err2 /\ \rank X2 = 1%N /\
  outcome (linreg (Arr2 (row_perm (tperm 0 (lift 0 0)) X2))
             (Arr1 (col_perm (tperm 0 (lift 0 0)) y2))
             (Arr1 (col_perm (tperm 0 (lift 0 0)) err2))) =
  outcome (linreg (Arr2 X2) (Arr1 y2) (Arr1 err2)).
Proof.
split; first exact: err2_nonzero.
split; first exact: rank_X2.
exact: (linreg_sample_order y2 (tperm 0 (lift 0 0)) err2_nonzero rank_X2).
Defined.

(* ===================================================================== *)
(* linreg in float64                                                     *)
(* ===================================================================== *)

(* X = the basis vector [5, 4, 2, 2] twice, flux = err = [1, 1, 1, 1].
   The two columns are identical and X.T @ inv_N @ X is the singular
   matrix [[49, 49], [49, 49]].  Its factorisation scales by the rounded
   reciprocal of 49: the multiplier is 49 * fl(1/49) = 1 - 2^-53, the
   second pivot 49 - fl((1 - 2^-53) * 49) = 2^-47 and not 0, so that
   np.linalg.inv raises nothing and linreg returns coefficients and a
   covariance. *)
Lemma identical_columns_return_f64 :
  [/\ [seq nth 0%binQ r 0 | r <- rows_5422] =
        [seq nth 0%binQ r 1 | r <- rows_5422],
      F64.bind (F64.matmul (F64.T X_5422) (F64.Arr2 4 (F64.identity 4)))
        (fun c => F64.matmul c X_5422) =
        F64.Done (F64.Arr2 2 [:: [:: 49; 49]; [:: 49; 49]]%binQ),
      F64.bind (F64.div 1%binQ 49%binQ) (F64.mul 49%binQ) =
        F64.Done (1 - F64.pow2 (-53)%binZ)%binQ,
      F64.bind (F64.lu 2 [:: [:: 49; 49]; [:: 49; 49]]%binQ)
        (fun U => F64.Done [seq r.1 | r <- U]) =
        F64.Done [:: [:: 49; 49]; [:: 0; F64.pow2 (-47)%binZ]]%binQ &
      exists betas cov, F64.linreg X_5422 ones4 ones4 = F64.Done (betas, cov)].
Proof.
split; [by [] | by vm_compute | by vm_compute | by vm_compute |].
by eexists; eexists; vm_compute.
Qed.

(* On the sample inputs of the exact model the float64 run does the
   same: X = [[1]], y = [1], err = [-1] returns [1] and [[1]]; err = [0]
   makes the first inversion raise; the basis vector [1, 1] twice gives the
   matrix [[2, 2], [2, 2]], whose second pivot is exactly 0, and raises,
   also when flux is one entry short. *)
Lemma f64_sample_runs :
  [/\ F64.linreg (F64.Arr2 1 [:: [:: 1]]%binQ) (F64.Arr1 [:: 1]%binQ)
        (F64.Arr1 [:: -1]%binQ) =
        F64.Done (F64.Arr1 [:: 1]%binQ, F64.Arr2 1 [:: [:: 1]]%binQ),
      F64.linreg (F64.Arr2 1 [:: [:: 1]]%binQ) (F64.Arr1 [:: 1]%binQ)
        (F64.Arr1 [:: 0]%binQ) = F64.Fail LinAlgError,
      F64.linreg X_11 ones2 ones2 = F64.Fail LinAlgError &
      F64.linreg X_11 (F64.Arr1 [:: 1]%binQ) ones2 = F64.Fail LinAlgError].
Proof. by split; vm_compute. Qed.
